(** * gowalker: reflective traversal of Go values

    A shallow embedding of [walker.go] (the [Walk] entry point, the
    recursive engine [walkRecursive] and the option constructors) and of
    the earlier variant of the same engine that keeps a path-keyed node
    cache, together with the properties of the traversal.

    Go values are finite trees whose pointers refer to a heap, so that
    cyclic graphs are heaps with a cell that leads back to itself.  The
    engine threads its mutable objects (the [visited] map, the nodes, the
    flat map, whatever the callbacks close over) through every call as one
    state, and ends in a node, an error, or a panic.  The heap is not
    changed during a walk: callbacks observe values and change their own
    state only. *)

From Stdlib Require Import ZArith List String Ascii Bool Lia.
From Stdlib Require Import DecimalString DecimalNat DecimalFacts.
From stdpp Require Import base gmap strings list.

Open Scope string_scope.
Open Scope Z_scope.

Set Warnings "-clear-no-such-hyp".

(** * The [reflect] layer

    Only what the walker asks of package [reflect] is modelled: type
    descriptors with their three names, values with their kind, and the
    two flags of a [reflect.Value] (read-only, addressable). *)
Module Reflect.

Inductive Kind :=
| KInvalid | KBool | KInt | KUint | KFloat | KComplex | KString
| KChan | KFunc | KUnsafePointer
| KInterface | KPtr | KStruct | KSlice | KArray | KMap.

(** The kinds without inner structure. *)
Inductive LeafKind :=
| LBool | LInt | LUint | LFloat | LComplex | LString
| LChan | LFunc | LUnsafePointer.

Definition leafKind (k : LeafKind) : Kind :=
  match k with
  | LBool => KBool | LInt => KInt | LUint => KUint | LFloat => KFloat
  | LComplex => KComplex | LString => KString | LChan => KChan
  | LFunc => KFunc | LUnsafePointer => KUnsafePointer
  end.

(** [reflect.Type], by the methods the walker calls: [Name()], [PkgPath()]
    and [String()].  [PkgPath] is empty for predeclared and for unnamed
    types. *)
Record rtype := mkType { tName : string; tPkgPath : string; tString : string }.

#[global] Instance rtype_eq_dec : EqDecision rtype.
Proof. solve_decision. Defined.

(** [reflect.StructTag], by the key-value pairs [Lookup] reads in it. *)
Definition StructTag := list (string * string).

Definition tag_Lookup (tag : StructTag) (key : string) : option string :=
  snd <$> List.find (fun p => bool_decide (fst p = key)) tag.

(** [reflect.StructField]: [PkgPath] is empty exactly for exported fields. *)
Record StructField := mkField { sfName : string; sfPkgPath : string; sfTag : StructTag }.

(** A map key, by its dynamic type and the text [fmt] prints for it under
    the verb [%v]. *)
Record MapKey := mkKey { keyType : rtype; keyText : string }.

#[local] Set Warnings "-register-all".

(** What an [interface{}] holds.  A slot of interface type is represented
    by its dynamic value, [VNil] being the nil interface.  Pointers refer
    to the heap by address (0 is the nil pointer); structs, slices, arrays
    and maps carry their members, so a slice or a map that holds itself is
    not among these values: cycles go through pointers.  The entries of a
    map are listed in the order in which [MapKeys] enumerates them, and
    every key has an entry ([MapIndex] of a listed key is valid). *)
Inductive Value :=
| VNil
| VLeaf (t : rtype) (k : LeafKind) (text : string)
| VPtr (t : rtype) (addr : Z)
| VStruct (t : rtype) (fields : list (StructField * Value))
| VSeq (t : rtype) (isArray : bool) (elems : list Value)
| VMap (t : rtype) (entries : list (MapKey * Value)).

Abbreviation Heap := (gmap Z Value).

(** [reflect.Value]: the zero Value, or data with the read-only flag (set
    on values obtained through unexported fields) and the addressable
    flag. *)
Inductive rValue :=
| Zero
| RV (data : Value) (flagRO : bool) (flagAddr : bool).

Definition ValueOf (obj : Value) : rValue :=
  match obj with
  | VNil => Zero
  | _ => RV obj false false
  end.

Definition v_IsValid (v : rValue) : bool :=
  match v with Zero => false | RV _ _ _ => true end.

Definition v_CanInterface (v : rValue) : bool :=
  match v with Zero => false | RV _ ro _ => negb ro end.

Definition v_CanSet (v : rValue) : bool :=
  match v with Zero => false | RV _ ro a => a && negb ro end.

Definition v_Kind (v : rValue) : Kind :=
  match v with
  | Zero => KInvalid
  | RV VNil _ _ => KInterface
  | RV (VLeaf _ k _) _ _ => leafKind k
  | RV (VPtr _ _) _ _ => KPtr
  | RV (VStruct _ _) _ _ => KStruct
  | RV (VSeq _ arr _) _ _ => if arr then KArray else KSlice
  | RV (VMap _ _) _ _ => KMap
  end.

Definition noType : rtype := mkType "" "" "".

(** [v.Type()]; the walker calls it on valid values only. *)
Definition v_Type (v : rValue) : rtype :=
  match v with
  | RV (VLeaf t _ _) _ _ | RV (VPtr t _) _ _ | RV (VStruct t _) _ _
  | RV (VSeq t _ _) _ _ | RV (VMap t _) _ _ => t
  | _ => noType
  end.

(** [reflect.TypeOf(obj)]: nil for the nil interface. *)
Definition TypeOf (obj : Value) : option rtype :=
  match obj with
  | VNil => None
  | _ => Some (v_Type (ValueOf obj))
  end.

Definition v_Pointer (v : rValue) : Z :=
  match v with RV (VPtr _ a) _ _ => a | _ => 0 end.

Definition v_IsNil (v : rValue) : bool :=
  match v with
  | RV (VPtr _ a) _ _ => a =? 0
  | RV VNil _ _ => true
  | _ => false
  end.

(** [v.Elem()] of a pointer: the zero Value for the nil pointer, else the
    addressable pointee.  A closed heap has a cell at every non-zero
    address it mentions. *)
Definition v_Elem (h : Heap) (v : rValue) : rValue :=
  match v with
  | RV (VPtr _ a) ro _ =>
      if a =? 0 then Zero
      else match h !! a with
           | Some d => RV d ro true
           | None => Zero
           end
  | _ => Zero
  end.

(** [v.Interface()]: [None] stands for the panic of [reflect] on the zero
    Value and on a value reached through an unexported field. *)
Definition v_Interface (v : rValue) : option Value :=
  match v with
  | Zero => None
  | RV d ro _ => if ro then None else Some d
  end.

Definition isExported (f : StructField) : bool :=
  if decide (sfPkgPath f = "") then true else false.

(** [v.Field(i)], given the i-th field and its content. *)
Definition v_Field (v : rValue) (f : StructField) (d : Value) : rValue :=
  match v with
  | RV _ ro a => RV d (ro || negb (isExported f)) a
  | Zero => Zero
  end.

(** [v.Index(i)]: elements of a slice are addressable, those of an array
    are when the array is. *)
Definition v_Index (v : rValue) (d : Value) : rValue :=
  match v with
  | RV (VSeq _ arr _) ro a => RV d ro (if arr then a else true)
  | _ => Zero
  end.

(** [v.MapIndex(key)] for a key that [MapKeys] returned. *)
Definition v_MapIndex (v : rValue) (d : Value) : rValue :=
  match v with
  | RV _ ro _ => RV d ro false
  | Zero => Zero
  end.

Definition fieldsOf (v : rValue) : list (StructField * Value) :=
  match v with RV (VStruct _ fs) _ _ => fs | _ => [] end.

Definition elemsOf (v : rValue) : list Value :=
  match v with RV (VSeq _ _ es) _ _ => es | _ => [] end.

Definition entriesOf (v : rValue) : list (MapKey * Value) :=
  match v with RV (VMap _ es) _ _ => es | _ => [] end.

(** The nesting of members inside a value, pointers not followed. *)
Fixpoint extent (v : Value) : nat :=
  match v with
  | VStruct _ fs => S (foldr (fun p acc => (extent (snd p) + acc)%nat) O fs)
  | VSeq _ _ es => S (foldr (fun d acc => (extent d + acc)%nat) O es)
  | VMap _ es => S (foldr (fun p acc => (extent (snd p) + acc)%nat) O es)
  | _ => O
  end.

(** What is left to descend into below the cells of the heap whose
    address is not in [seen]. *)
Definition weight (seen : gset Z) (h : Heap) : nat :=
  map_fold (fun a d acc =>
    ((if bool_decide (a ∈ seen) then O else S (extent d)) + acc)%nat) O h.

(** [%d] of a loop index. *)
Definition decimal (i : nat) : string := NilZero.string_of_uint (Nat.to_uint i).

(** Go's [int]: 64 bits, two's complement. *)
Definition int_wrap (z : Z) : Z := (z + 2 ^ 63) mod 2 ^ 64 - 2 ^ 63.
Definition int_add (a b : Z) : Z := int_wrap (a + b).

End Reflect.

(** * The traversal engine of [walker.go] *)
Module Walker.
Import Reflect.

Section Engine.

(** The state a callback closes over, and Go's [error] values. *)
Context {U Err : Type}.

(** Nodes live in a store; a [*FieldMeta] is an index into it. *)
Record FieldMeta := mkMeta {
  Name : string;
  Type_ : rtype;
  CanSet : bool;
  IsPrivate : bool;
  Path : string;
  Parent : option nat;
  Children : list nat
}.

(** A callback gets the value and a copy of the metadata, may change the
    state it closes over, and returns an error or nil. *)
Definition UserFunc := rValue -> FieldMeta -> U -> U * option Err.
Definition TagFilter := StructTag -> bool.
Definition TypeFilter := rtype -> bool.
Definition MetaFilter := FieldMeta -> bool.

Record walkSettings := mkSettings {
  maxDepth : Z;
  includePrivate : bool;
  onlySettable : bool;
  tagFilter : option TagFilter;
  typeFilter : option TypeFilter;
  metaFilter : option MetaFilter;
  userFuncs : list UserFunc
}.

Definition Option_ := walkSettings -> walkSettings.

Definition defaultSettings : walkSettings :=
  {| maxDepth := 10;
     includePrivate := true;
     onlySettable := false;
     tagFilter := None;
     typeFilter := None;
     metaFilter := None;
     userFuncs := [] |}.

Definition MaxDepth (depth : Z) : Option_ := fun s =>
  mkSettings depth (includePrivate s) (onlySettable s) (tagFilter s)
             (typeFilter s) (metaFilter s) (userFuncs s).

Definition PrivateFields : Option_ := fun s =>
  mkSettings (maxDepth s) true (onlySettable s) (tagFilter s)
             (typeFilter s) (metaFilter s) (userFuncs s).

Definition OnlySettable : Option_ := fun s =>
  mkSettings (maxDepth s) (includePrivate s) true (tagFilter s)
             (typeFilter s) (metaFilter s) (userFuncs s).

Definition WithMetaFilter (fn : MetaFilter) : Option_ := fun s =>
  mkSettings (maxDepth s) (includePrivate s) (onlySettable s) (tagFilter s)
             (typeFilter s) (Some fn) (userFuncs s).

Definition WithTagFilter (fn : TagFilter) : Option_ := fun s =>
  mkSettings (maxDepth s) (includePrivate s) (onlySettable s) (Some fn)
             (typeFilter s) (metaFilter s) (userFuncs s).

Definition WithTypeFilter (fn : TypeFilter) : Option_ := fun s =>
  mkSettings (maxDepth s) (includePrivate s) (onlySettable s) (tagFilter s)
             (Some fn) (metaFilter s) (userFuncs s).

Definition WithUserFunc (fn : UserFunc) : Option_ := fun s =>
  mkSettings (maxDepth s) (includePrivate s) (onlySettable s) (tagFilter s)
             (typeFilter s) (metaFilter s) (userFuncs s ++ [fn]).


Definition TypeIsOneOf (allowedTypes : list rtype) : TypeFilter := fun t =>
  existsb (fun a => bool_decide (t = a)) allowedTypes.

Definition TagExists (tagKey : string) (values : list string) : TagFilter :=
  fun tag =>
    match tag_Lookup tag tagKey with
    | None => false
    | Some tagValue =>
        match values with
        | [] => true
        | _ => existsb (fun value => bool_decide (tagValue = value)) values
        end
    end.

Definition IgnoreTag (tagKey : string) (values : list string) : TagFilter :=
  fun tag =>
    match tag_Lookup tag tagKey with
    | None => true
    | Some tagValue =>
        match values with
        | [] => false
        | _ => negb (existsb (fun value => bool_decide (tagValue = value)) values)
        end
    end.

Definition AllTagFilters (filters : list TagFilter) : TagFilter := fun tag =>
  forallb (fun f => f tag) filters.

Definition AnyTagFilter (filters : list TagFilter) : TagFilter := fun tag =>
  existsb (fun f => f tag) filters.

Definition AllMetaFilters (filters : list MetaFilter) : MetaFilter := fun meta =>
  forallb (fun f => f meta) filters.

Definition AnyMetaFilter (filters : list MetaFilter) : MetaFilter := fun meta =>
  existsb (fun f => f meta) filters.

(** What a traversal does, in order: a node built for a value (with its
    index in the store), a callback invoked with its result. *)
Inductive Event :=
| EvBuild (v : rValue) (id : nat) (meta : FieldMeta)
| EvCall (v : rValue) (meta : FieldMeta) (err : option Err).

(** The mutable objects of one call of [Walk]: the [visited] map, the node
    store, the [sync.Map] from paths to nodes, the callbacks' own state,
    and the record of what happened. *)
Record WalkState := mkState {
  visited : gset Z;
  nodes : list FieldMeta;
  flatMap : gmap string nat;
  user : U;
  trace : list Event
}.

Inductive Outcome (A : Type) :=
| Ret (a : A)
| Fail (e : Err)
| Panic
| OutOfFuel.
Arguments Ret {A} a.
Arguments Fail {A} e.
Arguments Panic {A}.
Arguments OutOfFuel {A}.

Definition setVisited (a : Z) (st : WalkState) : WalkState :=
  mkState ({[a]} ∪ visited st) (nodes st) (flatMap st) (user st) (trace st).

(** [meta := &FieldMeta{...}; flatMap.Store(path, meta)] *)
Definition storeNode (v : rValue) (meta : FieldMeta) (st : WalkState) : WalkState :=
  let id := length (nodes st) in
  mkState (visited st) (nodes st ++ [meta]) (<[Path meta := id]> (flatMap st))
          (user st) (trace st ++ [EvBuild v id meta]).

Definition addChild (c : nat) (m : FieldMeta) : FieldMeta :=
  mkMeta (Name m) (Type_ m) (CanSet m) (IsPrivate m) (Path m) (Parent m)
         (Children m ++ [c]).

Definition setParent (p : nat) (m : FieldMeta) : FieldMeta :=
  mkMeta (Name m) (Type_ m) (CanSet m) (IsPrivate m) (Path m) (Some p)
         (Children m).

(** [meta.Children = append(meta.Children, childMeta); childMeta.Parent = meta] *)
Definition attach (id child : nat) (st : WalkState) : WalkState :=
  mkState (visited st)
          (alter (setParent id) child (alter (addChild child) id (nodes st)))
          (flatMap st) (user st) (trace st).

(** [for _, fn := range settings.userFuncs { if err := fn(v, *meta); ... }] *)
Fixpoint callUserFuncs (fns : list UserFunc) (v : rValue) (meta : FieldMeta)
    (st : WalkState) : option Err * WalkState :=
  match fns with
  | [] => (None, st)
  | fn :: rest =>
      let '(u', r) := fn v meta (user st) in
      let st' := mkState (visited st) (nodes st) (flatMap st) u'
                         (trace st ++ [EvCall v meta r]) in
      match r with
      | Some e => (Some e, st')
      | None => callUserFuncs rest v meta st'
      end
  end.

(** One recursive call of a loop body: the path of the child and the
    result of [.Interface()] on it ([None] when that call panics). *)
Record Item := mkItem { itemPath : string; itemObj : option Value }.

Definition structItems (settings : walkSettings) (path : string) (v : rValue)
    : list Item :=
  flat_map (fun '(fieldType, d) =>
    let fieldVal := v_Field v fieldType d in
    if match tagFilter settings with
       | Some f => negb (f (sfTag fieldType))
       | None => false
       end then []
    else if negb (includePrivate settings) && negb (isExported fieldType) then []
    else if onlySettable settings && negb (v_CanSet fieldVal) then []
    else [mkItem (path +:+ "." +:+ sfName fieldType) (v_Interface fieldVal)])
  (fieldsOf v).

Definition seqItems (path : string) (v : rValue) : list Item :=
  imap (fun i d =>
    mkItem (path +:+ "[" +:+ decimal i +:+ "]") (v_Interface (v_Index v d)))
  (elemsOf v).

Definition mapItems (path : string) (v : rValue) : list Item :=
  map (fun '(key, d) =>
    mkItem (path +:+ "[" +:+ keyText key +:+ "]") (v_Interface (v_MapIndex v d)))
  (entriesOf v).

Definition ptrItems (h : Heap) (path : string) (v : rValue) : list Item :=
  if negb (v_IsNil v) then [mkItem (path +:+ ".*") (v_Interface (v_Elem h v))] else [].

(** The recursive calls of the kind switch, in the order the code makes
    them. *)
Definition childItems (h : Heap) (settings : walkSettings) (path : string)
    (v : rValue) : list Item :=
  match v_Kind v with
  | KPtr | KInterface => ptrItems h path v
  | KStruct => structItems settings path v
  | KSlice | KArray => seqItems path v
  | KMap => mapItems path v
  | _ => []
  end.

(** The body shared by the four loops of the switch: recurse, return on
    error, attach a child that is not nil. *)
Fixpoint walkItems
    (rec : Value -> string -> WalkState -> Outcome (option nat) * WalkState)
    (id : nat) (items : list Item) (st : WalkState)
    : Outcome (option nat) * WalkState :=
  match items with
  | [] => (Ret (Some id), st)
  | it :: rest =>
      match itemObj it with
      | None => (Panic, st)
      | Some obj =>
          match rec obj (itemPath it) st with
          | (Ret childMeta, st1) =>
              let st2 := match childMeta with
                         | Some c => attach id c st1
                         | None => st1
                         end in
              walkItems rec id rest st2
          | (other, st1) => (other, st1)
          end
      end
  end.

(** The literal [&FieldMeta{Name: name, CanSet: v.CanSet(), Path: path,
    Type: t, IsPrivate: t.PkgPath() != ""}], [name] being [t.Name()] or,
    when that is empty, [t.String()]. *)
Definition newMeta (v : rValue) (path : string) : FieldMeta :=
  let t := v_Type v in
  let name := if decide (tName t = "") then tString t else tName t in
  {| Name := name;
     CanSet := v_CanSet v;
     Path := path;
     Type_ := t;
     IsPrivate := negb (bool_decide (tPkgPath t = ""));
     Parent := None;
     Children := [] |}.

(** The test of [visited] for pointers and interfaces: [None] when the
    address was seen before, else the state with the address recorded. *)
Definition cycleGuard (v : rValue) (st : WalkState) : option WalkState :=
  match v_Kind v with
  | KPtr | KInterface =>
      let addr := v_Pointer v in
      if negb (addr =? 0) then
        if bool_decide (addr ∈ visited st) then None
        else Some (setVisited addr st)
      else Some st
  | _ => Some st
  end.

(** [walkRecursive], in the order of the source: the depth guard, the
    validity guard, the cycle guard, the node and its entry in the flat
    map, the callbacks, the switch on the kind.  [fuel] bounds the nesting
    of calls; [Walk] passes enough of it. *)
Fixpoint walkRecursive (fuel : nat) (h : Heap) (settings : walkSettings)
    (obj : Value) (depth : Z) (path : string) (st : WalkState)
    : Outcome (option nat) * WalkState :=
  match fuel with
  | O => (OutOfFuel, st)
  | S fuel' =>
      if depth >? maxDepth settings then (Ret None, st) else
      let v := ValueOf obj in
      if negb (v_IsValid v) || negb (v_CanInterface v) then (Ret None, st) else
      match cycleGuard v st with
      | None => (Ret None, st)
      | Some st1 =>
          let meta := newMeta v path in
          let id := length (nodes st1) in
          let st2 := storeNode v meta st1 in
          match callUserFuncs (userFuncs settings) v meta st2 with
          | (Some err, st3) => (Fail err, st3)
          | (None, st3) =>
              walkItems
                (fun o p s => walkRecursive fuel' h settings o (int_add depth 1) p s)
                id (childItems h settings path v) st3
          end
      end
  end.

(** What [Walk] hands back: its three results, or a panic.  [Diverged]
    is the recursion running out of the budget [walkFuel]. *)
Inductive WalkResult :=
| Returned (root : option nat) (m : option (gmap string nat)) (err : option Err)
| Panicked
| Diverged.

Definition walkFuel (h : Heap) (obj : Value) : nat :=
  S (extent obj + weight ∅ h).

Definition applyOptions (options : list Option_) : walkSettings :=
  fold_left (fun s option => option s) options defaultSettings.

Definition rootPathOf (t : rtype) : string :=
  if decide (tName t = "") then tString t else tName t.

Definition Walk (h : Heap) (obj : Value) (options : list Option_) (u : U)
    : WalkResult * WalkState :=
  let settings := applyOptions options in
  let st0 := mkState ∅ [] ∅ u [] in
  match TypeOf obj with
  | None => (Panicked, st0)
  | Some t =>
      let rootPath := rootPathOf t in
      let '(out, st) :=
        walkRecursive (walkFuel h obj) h settings obj 0 rootPath st0 in
      (match out with
       | Ret fieldMap => Returned fieldMap (Some (flatMap st)) None
       | Fail err => Returned None None (Some err)
       | Panic => Panicked
       | OutOfFuel => Diverged
       end, st)
  end.

End Engine.

Arguments Ret {Err A} a.
Arguments Fail {Err A} e.
Arguments Panic {Err A}.
Arguments OutOfFuel {Err A}.
Arguments WalkState : clear implicits.
Arguments WalkResult : clear implicits.
Arguments Event : clear implicits.
Arguments walkSettings : clear implicits.
Arguments UserFunc : clear implicits.
Arguments Option_ : clear implicits.

(** ** Reading the record of a traversal *)
Section Observations.
Context {U Err : Type}.
Implicit Types (st : WalkState U Err) (new : list (Event Err)).

Definition isError (ev : Event Err) : bool :=
  match ev with EvCall _ _ (Some _) => true | _ => false end.

(** No callback failed in [new]. *)
Definition quiet new : Prop := Forall (fun ev => isError ev = false) new.

(** The metadata of an event is the literal built for its value and path:
    in particular a callback sees a node without parent and without
    children. *)
Definition callFresh (ev : Event Err) : Prop :=
  match ev with
  | EvCall v meta _ | EvBuild v _ meta => meta = newMeta v (Path meta)
  end.

(** The address of the non-nil pointer an event builds a node for. *)
Definition builtAddr (ev : Event Err) : option Z :=
  match ev with
  | EvBuild (RV (VPtr _ a) _ _) _ _ => if a =? 0 then None else Some a
  | _ => None
  end.

Definition builtAddrs new : list Z := omap builtAddr new.


Record Step st (out : Outcome (Err:=Err) (option nat)) st' new : Prop := {
  step_trace : trace st' = (trace st ++ new)%list;
  step_visited : visited st ⊆ visited st';
  step_error :
    match out with
    | Fail e => exists pre v m, new = (pre ++ [EvCall v m (Some e)])%list /\ quiet pre
    | _ => quiet new
    end;
  step_calls : Forall callFresh new;
  step_nodup : NoDup (builtAddrs new);
  step_addrs : forall a, a ∈ builtAddrs new -> (a ∉ visited st) /\ (a ∈ visited st')
}.

Definition outcomeOf (r : option Err) : Outcome (Err:=Err) (option nat) :=
  match r with Some e => Fail e | None => Ret None end.

Definition eventPath (ev : Event Err) : string :=
  match ev with EvBuild _ _ meta | EvCall _ meta _ => Path meta end.

(** From [st] to [st'] only paths satisfying [P] were touched: the new
    events, the new nodes and the flat-map entries that changed all carry
    such a path. *)
Definition Within (P : string -> Prop) st st' : Prop :=
  (exists new, trace st' = (trace st ++ new)%list
               /\ Forall (fun ev => P (eventPath ev)) new)
  /\ (forall k, flatMap st' !! k <> flatMap st !! k -> P k)
  /\ (exists more, map Path (nodes st') = (map Path (nodes st) ++ more)%list
                   /\ Forall P more).

(** The flat map and the store fit: a key leads to a node with that path,
    and the path of every node is a key, bound to that node or to one
    built later. *)
Definition flatOk st : Prop :=
  (forall p i, flatMap st !! p = Some i -> map Path (nodes st) !! i = Some p)
  /\ (forall i p, map Path (nodes st) !! i = Some p ->
        exists j, flatMap st !! p = Some j /\ (i <= j)%nat).

End Observations.

(** ** The grammar of paths

    A path is the root name followed by segments [.*], [.Name] and
    [[key]]; a segment starts with one of the two separators. *)
Definition isSep (c : ascii) : bool :=
  bool_decide (c = "."%char) || bool_decide (c = "["%char).


Fixpoint noChar (Q : ascii -> bool) (s : string) : bool :=
  match s with
  | EmptyString => true
  | String c r => negb (Q c) && noChar Q r
  end.

Definition startsWith (Q : ascii -> bool) (s : string) : bool :=
  match s with
  | EmptyString => false
  | String c _ => Q c
  end.

(** Field names without separator, as Go identifiers are. *)
Definition okName (s : string) : bool := noChar isSep s.




(** [k] is [p] or continues [p] with further segments. *)
Definition below (p k : string) : Prop :=
  exists r, k = p +:+ r /\ (r = "" \/ startsWith isSep r = true).

(** No two of the paths [ps] have a common continuation. *)
Definition apart (ps : list string) : Prop :=
  NoDup ps
  /\ forall p1 p2 k, p1 ∈ ps -> p2 ∈ ps -> below p1 k -> below p2 k -> p1 = p2.

(** ** Two traversals side by side *)
Section Comparison.
Context {U1 U2 Err1 Err2 : Type}.




End Comparison.

#[global] Arguments builtAddr : simpl never.

End Walker.

(** * The earlier engine, with its cache of nodes by path

    The variant of [Walk] that takes one callback, checks the type filter
    and the metadata filter, reuses the parent path for what a pointer
    refers to, and looks a path up in [cache] before it builds a node.
    Its [ObjMeta] has the fields of [FieldMeta], and its [cache] is kept
    where [walker.go] keeps the flat map. *)
Module Legacy.
Import Reflect.
Import Walker.

Section Engine.
Context {U Err : Type}.

Abbreviation ObjMeta := FieldMeta.

Definition UserFunc := rValue -> ObjMeta -> U -> U * option Err.

Record walkSettings := mkSettings {
  s_MaxDepth : Z;
  s_IncludePrivate : bool;
  s_OnlySettable : bool;
  s_TagFilter : option TagFilter;
  s_TypeFilter : option TypeFilter;
  s_MetaFilter : option MetaFilter
}.

Definition Option_ := walkSettings -> walkSettings.

Definition defaultSettings : walkSettings :=
  {| s_MaxDepth := 10;
     s_IncludePrivate := false;
     s_OnlySettable := false;
     s_TagFilter := None;
     s_TypeFilter := None;
     s_MetaFilter := None |}.

Definition MaxDepth (depth : Z) : Option_ := fun s =>
  mkSettings depth (s_IncludePrivate s) (s_OnlySettable s) (s_TagFilter s)
             (s_TypeFilter s) (s_MetaFilter s).

Definition PrivateFields : Option_ := fun s =>
  mkSettings (s_MaxDepth s) true (s_OnlySettable s) (s_TagFilter s)
             (s_TypeFilter s) (s_MetaFilter s).

Definition OnlySettable : Option_ := fun s =>
  mkSettings (s_MaxDepth s) (s_IncludePrivate s) true (s_TagFilter s)
             (s_TypeFilter s) (s_MetaFilter s).

Definition WithMetaFilter (fn : MetaFilter) : Option_ := fun s =>
  mkSettings (s_MaxDepth s) (s_IncludePrivate s) (s_OnlySettable s)
             (s_TagFilter s) (s_TypeFilter s) (Some fn).

Definition WithTagFilter (fn : TagFilter) : Option_ := fun s =>
  mkSettings (s_MaxDepth s) (s_IncludePrivate s) (s_OnlySettable s)
             (Some fn) (s_TypeFilter s) (s_MetaFilter s).

Definition WithTypeFilter (fn : TypeFilter) : Option_ := fun s =>
  mkSettings (s_MaxDepth s) (s_IncludePrivate s) (s_OnlySettable s)
             (s_TagFilter s) (Some fn) (s_MetaFilter s).

(** [t.FieldByName(path)] on the fields the struct declares itself. *)
Definition FieldByName (v : rValue) (name : string) : option StructField :=
  fst <$> List.find (fun p => bool_decide (sfName (fst p) = name)) (fieldsOf v).

(** The tag test at the head of the call, made for structs only. *)
Definition tagRejects (settings : walkSettings) (v : rValue) (path : string)
    : bool :=
  match v_Kind v with
  | KStruct =>
      match FieldByName v path, s_TagFilter settings with
      | Some sf, Some f => negb (f (sfTag sf))
      | _, _ => false
      end
  | _ => false
  end.

(** [visited] is tested and set for every pointer, the nil one too. *)
Definition cycleGuard (v : rValue) (st : WalkState U Err)
    : option (WalkState U Err) :=
  match v_Kind v with
  | KPtr | KInterface =>
      let addr := v_Pointer v in
      if bool_decide (addr ∈ visited st) then None
      else Some (setVisited addr st)
  | _ => Some st
  end.

Definition structItems (path : string) (v : rValue) : list Item :=
  flat_map (fun '(fieldType, d) =>
    let field := v_Field v fieldType d in
    if negb (isExported fieldType) then []
    else [mkItem (path +:+ "." +:+ sfName fieldType) (v_Interface field)])
  (fieldsOf v).

Definition childItems (h : Heap) (path : string) (v : rValue) : list Item :=
  match v_Kind v with
  | KPtr | KInterface => [mkItem path (v_Interface (v_Elem h v))]
  | KStruct => structItems path v
  | KSlice | KArray => seqItems path v
  | KMap => mapItems path v
  | _ => []
  end.

(** [walkRecursive] of the earlier engine, in the order of its source:
    depth, validity, type filter, tag test, [visited], the lookup in
    [cache], the node literal, the metadata filter, [cache[path] = meta],
    the one callback, the switch on the kind. *)
Fixpoint walkRecursive (fuel : nat) (h : Heap) (settings : walkSettings)
    (obj : Value) (fn : UserFunc) (depth : Z) (path : string)
    (st : WalkState U Err) : Outcome (Err:=Err) (option nat) * WalkState U Err :=
  match fuel with
  | O => (OutOfFuel, st)
  | S fuel' =>
      if depth >? s_MaxDepth settings then (Ret None, st) else
      let v := ValueOf obj in
      if negb (v_IsValid v) || negb (v_CanInterface v) then (Ret None, st) else
      let t := v_Type v in
      if match s_TypeFilter settings with
         | Some f => negb (f t)
         | None => false
         end then (Ret None, st) else
      if tagRejects settings v path then (Ret None, st) else
      match cycleGuard v st with
      | None => (Ret None, st)
      | Some st1 =>
          match flatMap st1 !! path with
          | Some meta => (Ret (Some meta), st1)
          | None =>
              let meta := newMeta v path in
              if match s_MetaFilter settings with
                 | Some f => negb (f meta)
                 | None => false
                 end then (Ret None, st1) else
              let id := length (nodes st1) in
              let st2 := storeNode v meta st1 in
              match callUserFuncs [fn] v meta st2 with
              | (Some err, st3) => (Fail err, st3)
              | (None, st3) =>
                  walkItems
                    (fun o p s =>
                       walkRecursive fuel' h settings o fn (int_add depth 1) p s)
                    id (childItems h path v) st3
              end
          end
      end
  end.

Definition applyOptions (options : list Option_) : walkSettings :=
  fold_left (fun s option => option s) options defaultSettings.

(** [Walk] returns the root node and the error; [m] of the result is
    left nil. *)
Definition Walk (h : Heap) (obj : Value) (fn : UserFunc)
    (options : list Option_) (u : U)
    : WalkResult Err * WalkState U Err :=
  let settings := applyOptions options in
  let st0 := mkState ∅ [] ∅ u [] in
  match TypeOf obj with
  | None => (Panicked, st0)
  | Some t =>
      let rootPath := rootPathOf t in
      let '(out, st) :=
        walkRecursive (walkFuel h obj) h settings obj fn 0 rootPath st0 in
      (match out with
       | Ret meta => Returned meta None None
       | Fail err => Returned None None (Some err)
       | Panic => Panicked
       | OutOfFuel => Diverged
       end, st)
  end.

End Engine.

Arguments UserFunc : clear implicits.

End Legacy.

(** * Sample inputs *)
Module Examples.
Import Reflect.
Import Walker.

Definition intType : rtype := mkType "int" "" "int".
Definition stringType : rtype := mkType "string" "" "string".

(** [type Pair struct { Field1 int; Field2 string }], passed by value. *)
Definition pairType : rtype := mkType "Pair" "main" "main.Pair".
Definition pair : Value :=
  VStruct pairType
    [(mkField "Field1" "" [], VLeaf intType LInt "0");
     (mkField "Field2" "" [], VLeaf stringType LString "")].

(** [struct { Field1 int `filter:"true"`; Field2 string }]. *)
Definition taggedType : rtype := mkType "Tagged" "main" "main.Tagged".
Definition tagged : Value :=
  VStruct taggedType
    [(mkField "Field1" "" [("filter", "true")], VLeaf intType LInt "0");
     (mkField "Field2" "" [], VLeaf stringType LString "")].

(** [type Outer struct { F Inner }] with [type Inner struct { N int }]:
    both fields are exported. *)
Definition innerType : rtype := mkType "Inner" "main" "main.Inner".
Definition outerType : rtype := mkType "Outer" "main" "main.Outer".
Definition outer : Value :=
  VStruct outerType
    [(mkField "F" "" [],
      VStruct innerType [(mkField "N" "" [], VLeaf intType LInt "0")])].

(** [type Hidden struct { a int }]: the field is unexported. *)
Definition hiddenType : rtype := mkType "Hidden" "main" "main.Hidden".
Definition hidden : Value :=
  VStruct hiddenType [(mkField "a" "main" [], VLeaf intType LInt "0")].

(** [struct { S1 struct { S2 struct { SF1 int } } }], as in the test of the
    maximum depth. *)
Definition anon (s : string) : rtype := mkType "" "" s.
Definition nested : Value :=
  VStruct (anon "struct { S1 struct { S2 struct { SF1 int } } }")
    [(mkField "S1" "" [],
      VStruct (anon "struct { S2 struct { SF1 int } }")
        [(mkField "S2" "" [],
          VStruct (anon "struct { SF1 int }")
            [(mkField "SF1" "" [], VLeaf intType LInt "0")])])].


(** [p := new(int); map[string]*int{"a": p, "b": p}], as [MapKeys] may
    enumerate it: "a" first, or "b" first. *)
Definition intPtrType : rtype := mkType "" "" "*int".
Definition sharedType : rtype := mkType "" "" "map[string]*int".
Definition sharedHeap : Heap := {[ 512 := VLeaf intType LInt "0" ]}.
Definition sharedAB : Value :=
  VMap sharedType
    [(mkKey stringType "a", VPtr intPtrType 512);
     (mkKey stringType "b", VPtr intPtrType 512)].
Definition sharedBA : Value :=
  VMap sharedType
    [(mkKey stringType "b", VPtr intPtrType 512);
     (mkKey stringType "a", VPtr intPtrType 512)].

(** [n := &Node{}; n.Next = n]: a node that points back to itself. *)
Definition nodeType : rtype := mkType "Node" "main" "main.Node".
Definition nodePtrType : rtype := mkType "" "" "*main.Node".
Definition loopHeap : Heap :=
  {[ 4096 := VStruct nodeType [(mkField "Next" "" [], VPtr nodePtrType 4096)] ]}.
Definition loop : Value := VPtr nodePtrType 4096.

(** A callback that records the paths it is called with. *)
Definition record : UserFunc (list string) string :=
  fun _ meta seen => ((seen ++ [Path meta])%list, None).

(** A callback that fails at one path. *)
Definition failAt (p : string) : UserFunc unit string :=
  fun _ meta u => (u, if bool_decide (Path meta = p) then Some "boom" else None).



(** A metadata filter that rejects the nodes of strings. *)
Definition noStrings : MetaFilter :=
  fun meta => negb (bool_decide (Name meta = "string")).

End Examples.

(** * The options as a caller writes them *)
Module Options.
Import Reflect.
Import Walker.

Section Calls.
Context {U Err : Type}.

(** A call of one of the option constructors of [walker.go], by its
    arguments. *)
Inductive OptionCall :=
| CMaxDepth (depth : Z)
| CPrivateFields
| COnlySettable
| CWithMetaFilter (fn : MetaFilter)
| CWithTagFilter (fn : TagFilter)
| CWithTypeFilter (fn : TypeFilter)
| CWithUserFunc (fn : UserFunc U Err).

(** The [Option] such a call returns. *)
Definition optionOf (c : OptionCall) : Option_ U Err :=
  match c with
  | CMaxDepth depth => MaxDepth depth
  | CPrivateFields => PrivateFields
  | COnlySettable => OnlySettable
  | CWithMetaFilter fn => WithMetaFilter fn
  | CWithTagFilter fn => WithTagFilter fn
  | CWithTypeFilter fn => WithTypeFilter fn
  | CWithUserFunc fn => WithUserFunc fn
  end.

Definition depthOf (c : OptionCall) : option Z :=
  match c with CMaxDepth depth => Some depth | _ => None end.

Definition metaFilterOf (c : OptionCall) : option MetaFilter :=
  match c with CWithMetaFilter fn => Some fn | _ => None end.

Definition tagFilterOf (c : OptionCall) : option TagFilter :=
  match c with CWithTagFilter fn => Some fn | _ => None end.

Definition typeFilterOf (c : OptionCall) : option TypeFilter :=
  match c with CWithTypeFilter fn => Some fn | _ => None end.

Definition userFuncOf (c : OptionCall) : option (UserFunc U Err) :=
  match c with CWithUserFunc fn => Some fn | _ => None end.

Definition isOnlySettable (c : OptionCall) : bool :=
  match c with COnlySettable => true | _ => false end.

Definition isPrivateFields (c : OptionCall) : bool :=
  match c with CPrivateFields => true | _ => false end.

End Calls.

Arguments OptionCall : clear implicits.

End Options.

(** * The shape of the node store *)
Module Tree.
Import Reflect.
Import Walker.

(** The parent and child pointers of the nodes [ns] fit each other: the
    parent of a node is an earlier node that lists it among its
    children; a child of a node is a later node that has it as parent
    and whose path continues the path of the node by one segment; and
    the children of a node are listed in the order in which they were
    built. *)
Definition linked (ns : list FieldMeta) : Prop :=
  forall i m, ns !! i = Some m ->
    (forall p, Parent m = Some p ->
       (p < i)%nat /\ exists pm, ns !! p = Some pm /\ i ∈ Children pm)
    /\ (forall c, c ∈ Children m ->
          (i < c)%nat
          /\ exists cm, ns !! c = Some cm /\ Parent cm = Some i
             /\ exists suf, Path cm = Path m +:+ suf
                            /\ startsWith isSep suf = true)
    /\ (forall j k x y, Children m !! j = Some x -> Children m !! k = Some y ->
          (j < k)%nat -> (x < y)%nat).

(** The nodes of [ns] are kept in [ns']: same position, same content. *)
Definition framed (ns ns' : list FieldMeta) : Prop :=
  (length ns <= length ns')%nat
  /\ forall i, (i < length ns)%nat -> ns' !! i = ns !! i.

(** The node of the call in progress keeps everything but its list of
    children, which grows at its end. *)
Definition grown (m m' : FieldMeta) : Prop :=
  exists cs, m' = mkMeta (Name m) (Type_ m) (CanSet m) (IsPrivate m) (Path m)
                         (Parent m) (Children m ++ cs).

End Tree.

(** * The record of a walk, node by node *)
Module Blocks.
Import Reflect.
Import Walker.

Section Blocks.
Context {U Err : Type}.

(** A node with the value it was built for and its index. *)
Definition Built : Type := rValue * nat * FieldMeta.

(** The events of one node when no callback fails: the node is built,
    then every callback is called with its value and its literal, in the
    order of registration. *)
Definition block (fns : list (UserFunc U Err)) (b : Built) : list (Event Err) :=
  EvBuild b.1.1 b.1.2 b.2 :: map (fun _ => EvCall b.1.1 b.2 None) fns.

(** What these calls make of the state of the callbacks. *)
Definition runFuncs (fns : list (UserFunc U Err)) (u : U) (b : Built) : U :=
  fold_left (fun u fn => (fn b.1.1 b.2 u).1) fns u.

(** From [st] to [st'] the nodes [builds] were built, one after the
    other, each followed by its callbacks. *)
Definition ran (fns : list (UserFunc U Err)) (st st' : WalkState U Err)
    (builds : list Built) : Prop :=
  trace st' = (trace st ++ flat_map (block fns) builds)%list
  /\ user st' = fold_left (runFuncs fns) builds (user st)
  /\ map (fun b : Built => b.1.2) builds = seq (length (nodes st)) (length builds)
  /\ map Path (nodes st') = (map Path (nodes st) ++ map (fun b : Built => Path b.2) builds)%list
  /\ Forall (fun b : Built => b.2 = newMeta b.1.1 (Path b.2)) builds.

End Blocks.

End Blocks.

(** * Values the walker can take apart *)
Module Safety.
Import Reflect.



End Safety.

Import Reflect Walker.

(** ** Strings *)
Lemma append_cons c (s t : string) : String c s +:+ t = String c (s +:+ t).
Proof. reflexivity. Qed.

Lemma length_append (s t : string) :
  String.length (s +:+ t) = (String.length s + String.length t)%nat.
Proof.
  induction s as [|c s IH]; [done|]. rewrite append_cons. simpl. by rewrite IH.
Qed.

Lemma append_assoc (s t r : string) : (s +:+ t) +:+ r = s +:+ (t +:+ r).
Proof.
  induction s as [|c s IH]; [done|]. rewrite !append_cons. by rewrite IH.
Qed.

Lemma split_unique Q (a b x y : string) :
  a +:+ x = b +:+ y ->
  noChar Q a = true -> noChar Q b = true ->
  x = "" \/ startsWith Q x = true ->
  y = "" \/ startsWith Q y = true ->
  a = b.
Proof.
  revert b. induction a as [|c a IH]; intros [|d b]; simpl; try done.
  - change ("" +:+ x) with x. rewrite append_cons.
    intros -> _ [Hd _]%andb_prop [Hx|Hx] _; [done|].
    simpl in Hx. by rewrite Hx in Hd.
  - change ("" +:+ y) with y. rewrite append_cons.
    intros <- [Hc _]%andb_prop _ _ [Hy|Hy]; [done|].
    simpl in Hy. by rewrite Hy in Hc.
  - rewrite !append_cons.
    intros [= -> Heq] [_ Ha]%andb_prop [_ Hb]%andb_prop Hx Hy.
    f_equal. by apply IH.
Qed.


Lemma startsWith_append Q (s r : string) :
  startsWith Q s = true -> startsWith Q (s +:+ r) = true.
Proof. by destruct s. Qed.

Lemma below_refl p : below p p.
Proof. exists "". split; [|by left]. induction p; [done|]. rewrite append_cons. by f_equal. Qed.

Lemma below_child p suf k :
  startsWith isSep suf = true -> below (p +:+ suf) k -> below p k.
Proof.
  intros Hs (r & -> & _). exists (suf +:+ r). rewrite append_assoc.
  split; [done|]. right. by apply startsWith_append.
Qed.

Lemma below_longer p suf k :
  startsWith isSep suf = true -> below (p +:+ suf) k -> k <> p.
Proof.
  intros Hs (r & -> & _) Heq. apply (f_equal String.length) in Heq.
  rewrite !length_append in Heq. destruct suf; [done|]. simpl in Heq. lia.
Qed.

Lemma apart_fields p (names : list string) :
  NoDup names -> Forall (fun n => okName n = true) names ->
  apart (map (fun n => p +:+ "." +:+ n) names).
Proof.
  intros Hnd Hok. split.
  - apply (NoDup_fmap_2_strong _); [|done]. intros n1 n2 _ _ Heq.
    by apply String.app_inj, String.app_inj in Heq.
  - intros p1 p2 k (n1 & -> & H1)%list_elem_of_fmap (n2 & -> & H2)%list_elem_of_fmap
           (r1 & -> & Hr1) (r2 & Heq & Hr2).
    rewrite !append_assoc in Heq.
    apply String.app_inj, String.app_inj in Heq.
    rewrite Forall_forall in Hok.
    by rewrite (split_unique isSep n1 n2 r1 r2 Heq (Hok _ H1) (Hok _ H2) Hr1 Hr2).
Qed.






(** ** What every call of the engine does to the state *)
Section Steps.
Context {U Err : Type}.
Implicit Types (st : WalkState U Err) (settings : walkSettings U Err).
Implicit Types (new : list (Event Err)) (h : Heap).

Lemma quiet_app (l1 l2 : list (Event Err)) :
  quiet l1 -> quiet l2 -> quiet (l1 ++ l2).
Proof. unfold quiet. intros. by apply Forall_app. Qed.

Lemma Step_refl st (out : Outcome (option nat)) :
  (forall e, out <> Fail e) -> Step st out st [].
Proof.
  intros Hout. split; simpl; try done.
  - by rewrite app_nil_r.
  - destruct out; try constructor. by destruct (Hout e).
  - constructor.
  - intros a Ha. inversion Ha.
Qed.

Lemma Step_trans st x st1 new1 out st2 new2 :
  Step st (Ret x) st1 new1 -> Step st1 out st2 new2 ->
  Step st out st2 (new1 ++ new2).
Proof.
  intros [T1 V1 E1 C1 N1 HA1] [T2 V2 E2 C2 N2 HA2]. split.
  - by rewrite T2, T1, app_assoc.
  - set_solver.
  - destruct out; try by apply quiet_app.
    destruct E2 as (pre & v & m & -> & Hq).
    exists (new1 ++ pre)%list, v, m. split; [by rewrite app_assoc|].
    by apply quiet_app.
  - by apply Forall_app.
  - unfold builtAddrs. rewrite omap_app. apply NoDup_app. split_and!; try done.
    intros a Ha1 Ha2. destruct (HA1 a Ha1), (HA2 a Ha2). done.
  - unfold builtAddrs. rewrite omap_app. intros a [Ha|Ha]%elem_of_app.
    + destruct (HA1 a Ha). set_solver.
    + destruct (HA2 a Ha). set_solver.
Qed.

Lemma Step_call_ok st st' v meta x :
  meta = newMeta v (Path meta) ->
  trace st' = (trace st ++ [EvCall v meta None])%list ->
  visited st' = visited st ->
  Step st (Ret x) st' [EvCall v meta None].
Proof.
  intros HM HT HV. split; simpl; try done.
  - by rewrite HV.
  - by repeat constructor.
  - by repeat constructor.
  - constructor.
  - intros a Ha. inversion Ha.
Qed.

Lemma Step_call_err st st' v meta e :
  meta = newMeta v (Path meta) ->
  trace st' = (trace st ++ [EvCall v meta (Some e)])%list ->
  visited st' = visited st ->
  Step st (Fail e) st' [EvCall v meta (Some e)].
Proof.
  intros HM HT HV. split; simpl; try done.
  - by rewrite HV.
  - exists [], v, meta. split; [done|constructor].
  - by repeat constructor.
  - constructor.
  - intros a Ha. inversion Ha.
Qed.

Lemma callUserFuncs_Step fns v meta st :
  meta = newMeta v (Path meta) ->
  exists new,
    Step st (outcomeOf (callUserFuncs fns v meta st).1)
         (callUserFuncs fns v meta st).2 new
    /\ visited (callUserFuncs fns v meta st).2 = visited st
    /\ nodes (callUserFuncs fns v meta st).2 = nodes st
    /\ flatMap (callUserFuncs fns v meta st).2 = flatMap st
    /\ Forall (fun ev => exists r, ev = EvCall v meta r) new.
Proof.
  intros HM. revert st. induction fns as [|fn rest IH]; intros st; simpl.
  - exists []. split_and!; try done. by apply Step_refl.
  - destruct (fn v meta (user st)) as [u' [e|]] eqn:Hfn.
    + exists [EvCall v meta (Some e)]. split_and!; try done; simpl.
      * by apply Step_call_err.
      * repeat constructor. by eexists.
    + match goal with |- context [callUserFuncs rest v meta ?s] =>
        destruct (IH s) as (new & HS & HV & HN & HF & HA) end.
      exists (EvCall v meta None :: new). split_and!; try done.
      * eapply (Step_trans _ _ _ [_]); [|exact HS].
        by apply (Step_call_ok _ _ _ _ None).
      * constructor; [by eexists|done].
Qed.

Lemma Step_same st out st1 st2 new :
  trace st2 = trace st1 -> visited st2 = visited st1 ->
  Step st out st1 new -> Step st out st2 new.
Proof.
  intros HT HV [T V E C N HA]. split; try done.
  - by rewrite HT.
  - by rewrite HV.
  - intros a Ha. rewrite HV. by apply HA.
Qed.

Lemma Step_from st0 st out st' new :
  trace st0 = trace st -> visited st0 = visited st ->
  Step st out st' new -> Step st0 out st' new.
Proof.
  intros HT HV [T V E C N HA]. split; try done.
  - by rewrite HT.
  - by rewrite HV.
  - intros a Ha. rewrite HV. by apply HA.
Qed.

Lemma walkItems_Step rec id items st :
  (forall obj p s, exists new, Step s (rec obj p s).1 (rec obj p s).2 new) ->
  exists new,
    Step st (walkItems rec id items st).1 (walkItems rec id items st).2 new.
Proof.
  intros Hrec. revert st. induction items as [|it rest IH]; intros st; simpl.
  - exists []. by apply Step_refl.
  - destruct (itemObj it) as [obj|]; [|exists []; by apply Step_refl].
    destruct (Hrec obj (itemPath it) st) as (new1 & H1).
    destruct (rec obj (itemPath it) st) as [[childMeta| | |] st1]; simpl in *;
      try by eexists.
    match goal with |- context [walkItems rec id rest ?s] =>
      destruct (IH s) as (new2 & H2) end.
    exists (new1 ++ new2)%list. eapply Step_trans; [exact H1|].
    destruct childMeta; [|done]. by eapply Step_from; [| |exact H2].
Qed.

(** The node of a value that passed the guards: its address, when it is a
    non-nil pointer, has just been recorded. *)
Lemma Step_build st st1 v id meta x :
  meta = newMeta v (Path meta) ->
  trace st1 = (trace st ++ [EvBuild v id meta])%list ->
  visited st ⊆ visited st1 ->
  (forall a, builtAddr (Err:=Err) (EvBuild v id meta) = Some a ->
     (a ∉ visited st) /\ (a ∈ visited st1)) ->
  Step st (Ret x) st1 [EvBuild v id meta].
Proof.
  intros HM HT HV HA. split; try done.
  - by repeat constructor.
  - by repeat constructor.
  - unfold builtAddrs. simpl.
    destruct (builtAddr _); [apply NoDup_singleton|constructor].
  - unfold builtAddrs. simpl. intros a Ha.
    destruct (builtAddr _) as [b|] eqn:Hb; [|inversion Ha].
    apply list_elem_of_singleton in Ha as ->. by apply HA.
Qed.

Lemma cycleGuard_Some v st st1 :
  cycleGuard v st = Some st1 ->
  trace st1 = trace st /\ nodes st1 = nodes st /\ flatMap st1 = flatMap st
  /\ user st1 = user st /\ visited st ⊆ visited st1
  /\ (forall id meta a, builtAddr (Err:=Err) (EvBuild v id meta) = Some a ->
        (a ∉ visited st) /\ (a ∈ visited st1)).
Proof.
  unfold cycleGuard, builtAddr. intros H.
  destruct v as [|[] ro ad]; simpl in *; simplify_eq; split_and!; try done.
  all: try (destruct k; simpl in *; simplify_eq; done).
  all: try (destruct isArray; simpl in *; simplify_eq; done).
  all: destruct (addr =? 0) eqn:Ha; simpl in *; simplify_eq; try done.
  all: case_bool_decide; simplify_eq; simpl; try done; try set_solver.
Qed.

Lemma walkRecursive_Step fuel h settings obj depth path st :
  exists new,
    Step st (walkRecursive fuel h settings obj depth path st).1
         (walkRecursive fuel h settings obj depth path st).2 new.
Proof.
  revert obj depth path st.
  induction fuel as [|fuel IH]; intros obj depth path st; simpl.
  { exists []. by apply Step_refl. }
  destruct (depth >? maxDepth settings); [exists []; by apply Step_refl|].
  destruct (negb (v_IsValid (ValueOf obj)) || negb (v_CanInterface (ValueOf obj)));
    [exists []; by apply Step_refl|].
  set (v := ValueOf obj).
  destruct (cycleGuard v st) as [st1|] eqn:Hguard;
    [|exists []; by apply Step_refl].
  apply cycleGuard_Some in Hguard as (HT & _ & _ & _ & HV & HA).
  set (meta := newMeta v path).
  assert (Hb : Step st (Ret None) (storeNode v meta st1)
                 [EvBuild v (length (nodes st1)) meta]).
  { apply Step_build; [done|by simpl; rewrite HT|done|apply HA]. }
  destruct (callUserFuncs_Step (userFuncs settings) v meta (storeNode v meta st1))
    as (new2 & H2 & _); [done|].
  destruct (callUserFuncs _ v meta _) as [[err|] st3]; simpl in *.
  - eexists. eapply Step_trans; [exact Hb|exact H2].
  - match goal with |- context [walkItems ?r ?i ?l st3] =>
      destruct (walkItems_Step r i l st3) as (new3 & H3) end.
    { intros. apply IH. }
    eexists. eapply Step_trans; [exact Hb|].
    eapply Step_trans; [exact H2|exact H3].
Qed.

End Steps.

(** ** The budget of [Walk] is enough *)
Section Fuel.
Context {U Err : Type}.
Implicit Types (st : WalkState U Err) (settings : walkSettings U Err).
Implicit Types (h : Heap) (seen : gset Z).

Lemma weight_insert seen h a d :
  h !! a = None ->
  weight seen (<[a:=d]> h)
  = ((if bool_decide (a ∈ seen) then O else S (extent d)) + weight seen h)%nat.
Proof.
  intros Hnone. unfold weight. rewrite map_fold_insert_L; [done| |done].
  intros. apply Nat.add_shuffle3.
Qed.

Lemma weight_mono seen seen' h :
  seen ⊆ seen' -> (weight seen' h <= weight seen h)%nat.
Proof.
  intros Hsub. induction h as [|a d h Hnone IH] using map_ind.
  - done.
  - rewrite !weight_insert by done.
    repeat case_bool_decide; try lia. set_solver.
Qed.

Lemma weight_visit seen h a d :
  h !! a = Some d -> a ∉ seen ->
  (S (extent d) + weight ({[a]} ∪ seen) h <= weight seen h)%nat.
Proof.
  intros Hsome Hnot.
  rewrite <- (insert_delete_id h a d Hsome).
  rewrite !weight_insert by apply lookup_delete_eq.
  rewrite bool_decide_eq_true_2 by set_solver.
  rewrite bool_decide_eq_false_2 by done.
  assert (Hsub : seen ⊆ {[a]} ∪ seen) by set_solver.
  pose proof (weight_mono seen ({[a]} ∪ seen) (delete a h) Hsub). lia.
Qed.

Lemma extent_member {A} (g : A -> Value) (l : list A) (x : A) :
  In x l -> (extent (g x) <= foldr (fun p acc => extent (g p) + acc) O l)%nat.
Proof.
  induction l as [|y l IH]; simpl; [done|].
  intros [->|Hin]; [lia|]. specialize (IH Hin). lia.
Qed.

(** The objects the kind switch recurses into are members of the value,
    or the cell a non-nil pointer refers to. *)
Lemma childItems_obj h settings path obj it d :
  In it (childItems h settings path (ValueOf obj)) -> itemObj it = Some d ->
  match obj with
  | VPtr _ a => a <> 0 /\ h !! a = Some d
  | VStruct _ fs => exists f, In (f, d) fs
  | VSeq _ _ es => In d es
  | VMap _ es => exists k, In (k, d) es
  | _ => False
  end.
Proof.
  destruct obj as [|t k x|t a|t fs|t arr es|t es]; simpl.
  - done.
  - unfold childItems; simpl. by destruct k.
  - unfold childItems, ptrItems; simpl.
    destruct (a =? 0) eqn:Ha; simpl; [done|]. intros [<-|[]]; simpl.
    destruct (h !! a); simpl; [|done]. intros [= ->]. split; [lia|done].
  - unfold childItems, structItems; simpl.
    intros ([f d'] & Hin & Hit)%in_flat_map Hobj. exists f.
    repeat (match type of Hit with In _ (if ?c then _ else _) =>
              destruct c; [done|] end).
    destruct Hit as [<-|[]]. simpl in Hobj.
    destruct (negb (isExported f)); simplify_eq. done.
  - unfold childItems. replace (v_Kind _) with (if arr then KArray else KSlice) by done.
    assert (Hseq : In it (seqItems path (RV (VSeq t arr es) false false)) ->
              itemObj it = Some d -> In d es).
    { unfold seqItems; simpl. rewrite <- list_elem_of_In.
      intros (i & d' & -> & Hl)%elem_of_lookup_imap; simpl. intros [= ->].
      apply list_elem_of_In, list_elem_of_lookup. by exists i. }
    by destruct arr.
  - unfold childItems, mapItems; simpl.
    intros ([k d'] & <- & Hin)%in_map_iff; simpl. intros [= ->]. by exists k.
Qed.

Lemma childItems_bound h settings path obj st st1 it d :
  cycleGuard (ValueOf obj) st = Some st1 ->
  In it (childItems h settings path (ValueOf obj)) -> itemObj it = Some d ->
  (extent d + weight (visited st1) h < extent obj + weight (visited st) h)%nat.
Proof.
  intros Hguard Hin Hobj. pose proof (childItems_obj _ _ _ _ _ _ Hin Hobj) as Hc.
  destruct obj as [|t k x|t a|t fs|t arr es|t es]; try done.
  - destruct Hc as [Ha Hd]. unfold cycleGuard in Hguard; simpl in Hguard.
    destruct (a =? 0) eqn:Ha0; [lia|]. simpl in Hguard.
    case_bool_decide; simplify_eq. simpl.
    pose proof (weight_visit (visited st) h a d Hd ltac:(done)). lia.
  - destruct Hc as [f Hf]. unfold cycleGuard in Hguard; simpl in Hguard.
    simplify_eq. simpl.
    pose proof (extent_member snd fs (f, d) Hf). simpl in *. lia.
  - unfold cycleGuard in Hguard.
    replace (v_Kind _) with (if arr then KArray else KSlice) in Hguard by done.
    assert (st1 = st) as -> by (destruct arr; congruence). simpl.
    pose proof (extent_member id es d Hc). simpl in *. unfold id in *. lia.
  - destruct Hc as [k Hk]. unfold cycleGuard in Hguard; simpl in Hguard.
    simplify_eq. simpl.
    pose proof (extent_member snd es (k, d) Hk). simpl in *. lia.
Qed.

Lemma walkItems_fuel h fuel rec id items st :
  (forall o p s, (extent o + weight (visited s) h < fuel)%nat ->
     (rec o p s).1 <> OutOfFuel) ->
  (forall o p s, visited s ⊆ visited (rec o p s).2) ->
  (forall it d, In it items -> itemObj it = Some d ->
     (extent d + weight (visited st) h < fuel)%nat) ->
  (walkItems rec id items st).1 <> OutOfFuel.
Proof.
  intros Hrec Hmono. revert st.
  induction items as [|it rest IH]; intros st Hitems; simpl; [done|].
  destruct (itemObj it) as [obj|] eqn:Hobj; [|done].
  pose proof (Hrec obj (itemPath it) st) as H1.
  pose proof (Hmono obj (itemPath it) st) as H2.
  destruct (rec obj (itemPath it) st) as [[childMeta| | |] st1]; simpl in *;
    try done.
  - apply IH. intros it' d Hin Hd.
    assert (Hb : (extent d + weight (visited st) h < fuel)%nat)
      by (eapply Hitems; eauto).
    assert (Hv : visited st ⊆ visited st1) by done.
    pose proof (weight_mono _ _ h Hv).
    destruct childMeta; simpl; lia.
  - apply H1. eapply Hitems; eauto.
Qed.

Lemma walkRecursive_fuel fuel h settings obj depth path st :
  (extent obj + weight (visited st) h < fuel)%nat ->
  (walkRecursive fuel h settings obj depth path st).1 <> OutOfFuel.
Proof.
  revert obj depth path st.
  induction fuel as [|fuel IH]; intros obj depth path st Hfuel; [lia|]. simpl.
  destruct (depth >? maxDepth settings); [done|].
  destruct (negb (v_IsValid (ValueOf obj)) || negb (v_CanInterface (ValueOf obj)));
    [done|].
  destruct (cycleGuard (ValueOf obj) st) as [st1|] eqn:Hguard; [|done].
  set (meta := newMeta (ValueOf obj) path).
  destruct (callUserFuncs_Step (userFuncs settings) (ValueOf obj) meta
              (storeNode (ValueOf obj) meta st1)) as (new & _ & HV & _);
    [done|].
  destruct (callUserFuncs _ _ meta _) as [[err|] st3]; simpl in *; [done|].
  apply (walkItems_fuel h fuel).
  - intros. by apply IH.
  - intros o p s.
    destruct (walkRecursive_Step fuel h settings o (int_add depth 1) p s)
      as (new' & HS). apply HS.
  - intros it d Hin Hd. rewrite HV.
    pose proof (childItems_bound _ _ _ _ _ _ _ _ Hguard Hin Hd). lia.
Qed.



End Fuel.




(** ** Which paths a call touches *)
Section Paths.
Context {U Err : Type}.
Implicit Types (st : WalkState U Err) (settings : walkSettings U Err).
Implicit Types (h : Heap) (P : string -> Prop).

Lemma callUserFuncs_shape (fns : list (UserFunc U Err)) v meta st :
  visited (callUserFuncs fns v meta st).2 = visited st
  /\ nodes (callUserFuncs fns v meta st).2 = nodes st
  /\ flatMap (callUserFuncs fns v meta st).2 = flatMap st.
Proof.
  revert st. induction fns as [|fn rest IH]; intros st; simpl; [done|].
  destruct (fn v meta (user st)) as [u' [e|]]; [done|].
  match goal with |- context [callUserFuncs rest v meta ?s] =>
    destruct (IH s) as (HV & HN & HF) end.
  by rewrite HV, HN, HF.
Qed.

Lemma callUserFuncs_trace (fns : list (UserFunc U Err)) v meta st :
  exists new,
    trace (callUserFuncs fns v meta st).2 = (trace st ++ new)%list
    /\ Forall (fun ev => exists r, ev = EvCall v meta r) new.
Proof.
  revert st. induction fns as [|fn rest IH]; intros st; simpl.
  - exists []. by rewrite app_nil_r.
  - destruct (fn v meta (user st)) as [u' [e|]].
    + exists [EvCall v meta (Some e)]. split; [done|].
      repeat constructor. by eexists.
    + match goal with |- context [callUserFuncs rest v meta ?s] =>
        destruct (IH s) as (new & HT & HF) end.
      exists (EvCall v meta None :: new). rewrite HT. simpl.
      rewrite <- app_assoc. split; [done|]. constructor; [by eexists|done].
Qed.


Lemma Within_refl P st : Within P st st.
Proof.
  split_and!.
  - exists []. by rewrite app_nil_r.
  - done.
  - exists []. by rewrite app_nil_r.
Qed.

Lemma Within_trans P st st1 st2 :
  Within P st st1 -> Within P st1 st2 -> Within P st st2.
Proof.
  intros ((n1 & T1 & F1) & K1 & (m1 & N1 & G1))
         ((n2 & T2 & F2) & K2 & (m2 & N2 & G2)).
  split_and!.
  - exists (n1 ++ n2)%list. rewrite T2, T1, app_assoc. split; [done|].
    by apply Forall_app.
  - intros k Hk.
    destruct (decide (flatMap st2 !! k = flatMap st1 !! k)) as [Heq|Hne];
      [|by apply K2].
    apply K1. by rewrite <- Heq.
  - exists (m1 ++ m2)%list. rewrite N2, N1, app_assoc. split; [done|].
    by apply Forall_app.
Qed.

Lemma Within_weaken (P Q : string -> Prop) st st' :
  (forall k, P k -> Q k) -> Within P st st' -> Within Q st st'.
Proof.
  intros HPQ ((n & T & F) & K & (m & N & G)). split_and!.
  - exists n. split; [done|]. eapply Forall_impl; [exact F|]. simpl. auto.
  - auto.
  - exists m. split; [done|]. eapply Forall_impl; [exact G|]. auto.
Qed.

Lemma map_Path_alter (f : FieldMeta -> FieldMeta) i (l : list FieldMeta) :
  (forall m, Path (f m) = Path m) -> map Path (alter f i l) = map Path l.
Proof.
  intros Hf. revert i. induction l as [|x l IH]; intros [|i]; simpl; try done.
  - by rewrite Hf.
  - f_equal. apply IH.
Qed.

Lemma map_Path_attach id c st :
  map Path (nodes (attach id c st)) = map Path (nodes st).
Proof.
  unfold attach; simpl. by rewrite !map_Path_alter.
Qed.

Lemma Within_attach P id c st st' :
  Within P st st' -> Within P st (attach id c st').
Proof.
  intros (T & K & (m & N & G)). split_and!; try done.
  exists m. by rewrite map_Path_attach.
Qed.

Lemma Within_storeNode P v meta st :
  P (Path meta) -> Within P st (storeNode v meta st).
Proof.
  intros HP. split_and!; simpl.
  - exists [EvBuild v (length (nodes st)) meta]. split; [done|].
    by repeat constructor.
  - intros k Hk. destruct (decide (Path meta = k)) as [<-|Hne]; [done|].
    by rewrite lookup_insert_ne in Hk.
  - exists [Path meta]. rewrite map_app. split; [done|]. by repeat constructor.
Qed.

Lemma Within_callUserFuncs P (fns : list (UserFunc U Err)) v meta st :
  P (Path meta) -> Within P st (callUserFuncs fns v meta st).2.
Proof.
  intros HP.
  destruct (callUserFuncs_shape fns v meta st) as (HV & HN & HF).
  destruct (callUserFuncs_trace fns v meta st) as (new & HT & HA).
  split_and!.
  - exists new. split; [done|].
    eapply Forall_impl; [exact HA|]. simpl. by intros ev [r ->].
  - intros k. by rewrite HF.
  - exists []. by rewrite HN, app_nil_r.
Qed.

Lemma walkItems_Within P rec id items st :
  (forall it o s, In it items -> itemObj it = Some o ->
     Within P s (rec o (itemPath it) s).2) ->
  Within P st (walkItems rec id items st).2.
Proof.
  revert st. induction items as [|it rest IH]; intros st Hrec; simpl.
  - apply Within_refl.
  - destruct (itemObj it) as [obj|] eqn:Hobj; [|apply Within_refl].
    pose proof (Hrec it obj st (or_introl eq_refl) Hobj) as H1.
    destruct (rec obj (itemPath it) st) as [[childMeta| | |] st1]; simpl in *;
      try done.
    eapply Within_trans; [|apply IH].
    + destruct childMeta; [by apply Within_attach|done].
    + intros it' o s Hin. apply Hrec. by right.
Qed.

(** One level of the recursion: the call touches its own path and what
    the calls on its members touch. *)
Lemma walkRecursive_Within_step P fuel h settings obj depth path st :
  P path ->
  (forall it o s, In it (childItems h settings path (ValueOf obj)) ->
     itemObj it = Some o ->
     Within P s (walkRecursive fuel h settings o (int_add depth 1)
                   (itemPath it) s).2) ->
  Within P st (walkRecursive (S fuel) h settings obj depth path st).2.
Proof.
  intros HP Hrec. simpl.
  destruct (depth >? maxDepth settings); [apply Within_refl|].
  destruct (negb (v_IsValid (ValueOf obj)) || negb (v_CanInterface (ValueOf obj)));
    [apply Within_refl|].
  destruct (cycleGuard (ValueOf obj) st) as [st1|] eqn:Hguard;
    [|apply Within_refl].
  apply cycleGuard_Some in Hguard as (HT & HN & HF & _).
  set (v := ValueOf obj). set (meta := newMeta v path).
  assert (H1 : Within P st (storeNode v meta st1)).
  { destruct (Within_storeNode P v meta st1 HP) as ((n & T & F) & K & (m & N & G)).
    split_and!.
    - exists n. by rewrite <- HT.
    - intros k. rewrite <- HF. apply K.
    - exists m. by rewrite <- HN. }
  pose proof (Within_callUserFuncs P (userFuncs settings) v meta
                (storeNode v meta st1) HP) as H2.
  destruct (callUserFuncs _ v meta _) as [[err|] st3]; simpl in *.
  - by eapply Within_trans.
  - eapply Within_trans; [exact H1|]. eapply Within_trans; [exact H2|].
    by apply walkItems_Within.
Qed.

(** A call below the maximum depth leaves the state as it is. *)
Lemma walkRecursive_pruned fuel h settings obj depth path st :
  maxDepth settings < depth ->
  (walkRecursive fuel h settings obj depth path st).2 = st
  /\ (walkRecursive (S fuel) h settings obj depth path st).1 = Ret None.
Proof.
  intros Hd. assert (Hg : (depth >? maxDepth settings) = true).
  { rewrite Z.gtb_ltb. by apply Z.ltb_lt. }
  destruct fuel; simpl; by rewrite ?Hg.
Qed.

(** A node pointer returned by the engine is the index the store had when
    the call began: the node is new. *)
Lemma walkItems_ret rec id items st c :
  (walkItems rec id items st).1 = Ret c -> c = Some id.
Proof.
  revert st. induction items as [|it rest IH]; intros st; simpl.
  - by intros [= <-].
  - destruct (itemObj it); [|done].
    destruct (rec _ _ st) as [[childMeta| | |] st1]; simpl; try done.
    apply IH.
Qed.

Lemma walkRecursive_ret fuel h settings obj depth path st id :
  (walkRecursive fuel h settings obj depth path st).1 = Ret (Some id) ->
  id = length (nodes st).
Proof.
  destruct fuel; simpl; [done|].
  destruct (depth >? maxDepth settings); [done|].
  destruct (negb (v_IsValid (ValueOf obj)) || negb (v_CanInterface (ValueOf obj)));
    [done|].
  destruct (cycleGuard (ValueOf obj) st) as [st1|] eqn:Hguard; [|done].
  apply cycleGuard_Some in Hguard as (HT & HN & HF & _).
  destruct (callUserFuncs _ _ _ _) as [[err|] st3]; simpl; [done|].
  intros Hr%walkItems_ret. rewrite <- HN. congruence.
Qed.

End Paths.

(** ** Paths do not repeat when names and keys are distinct *)
Section Unique.
Context {U Err : Type}.
Implicit Types (st : WalkState U Err) (settings : walkSettings U Err).
Implicit Types (h : Heap).

Lemma childItems_suffix h settings path v it :
  In it (childItems h settings path v) ->
  exists suf, itemPath it = path +:+ suf /\ startsWith isSep suf = true.
Proof.
  unfold childItems.
  assert (Hp : In it (ptrItems h path v) ->
            exists suf, itemPath it = path +:+ suf /\ startsWith isSep suf = true).
  { unfold ptrItems. destruct (negb (v_IsNil v)); [|done].
    intros [<-|[]]. by exists ".*". }
  assert (Hs : In it (seqItems path v) ->
            exists suf, itemPath it = path +:+ suf /\ startsWith isSep suf = true).
  { unfold seqItems. rewrite <- list_elem_of_In.
    intros (i & d & -> & _)%elem_of_lookup_imap. by eexists. }
  destruct (v_Kind v); try done.
  - unfold structItems. intros ([f d] & _ & Hit)%in_flat_map.
    repeat (match type of Hit with In _ (if ?c then _ else _) =>
              destruct c; [done|] end).
    destruct Hit as [<-|[]]. by eexists.
  - unfold mapItems. intros ([k d] & <- & _)%in_map_iff. by eexists.
Qed.




Lemma forallb_Forall_map {A} (f : A -> string) (ok : string -> bool) (l : list A) :
  forallb (fun x => ok (f x)) l = true ->
  Forall (fun n => ok n = true) (map f l).
Proof.
  induction l as [|x l IH]; simpl; [constructor|].
  intros [Hx Hl]%andb_prop. constructor; auto.
Qed.






(** What [storeNode] preserves, and what does not look beyond the flat map
    and the paths of the nodes, every call preserves. *)
Lemma walkItems_preserves (I : WalkState U Err -> Prop) rec id items st :
  (forall st st', flatMap st' = flatMap st ->
     map Path (nodes st') = map Path (nodes st) -> I st -> I st') ->
  (forall o p s, I s -> I (rec o p s).2) ->
  I st -> I (walkItems rec id items st).2.
Proof.
  intros Hsame Hrec. revert st.
  induction items as [|it rest IH]; intros st HI; simpl; [done|].
  destruct (itemObj it) as [obj|]; [|done].
  pose proof (Hrec obj (itemPath it) st HI) as H1.
  destruct (rec obj (itemPath it) st) as [[childMeta| | |] st1]; simpl in *;
    try done.
  apply IH. destruct childMeta; [|done].
  eapply Hsame; [| |exact H1]; [done|apply map_Path_attach].
Qed.

Lemma walkRecursive_preserves (I : WalkState U Err -> Prop) fuel h settings obj
    depth path st :
  (forall v meta st, I st -> I (storeNode v meta st)) ->
  (forall st st', flatMap st' = flatMap st ->
     map Path (nodes st') = map Path (nodes st) -> I st -> I st') ->
  I st -> I (walkRecursive fuel h settings obj depth path st).2.
Proof.
  intros Hstore Hsame. revert obj depth path st.
  induction fuel as [|fuel IH]; intros obj depth path st HI; simpl; [done|].
  destruct (depth >? maxDepth settings); [done|].
  destruct (negb (v_IsValid (ValueOf obj)) || negb (v_CanInterface (ValueOf obj)));
    [done|].
  destruct (cycleGuard (ValueOf obj) st) as [st1|] eqn:Hguard; [|done].
  apply cycleGuard_Some in Hguard as (_ & HN & HF & _).
  set (v := ValueOf obj). set (meta := newMeta v path).
  assert (H1 : I st1) by (eapply Hsame; [done|by rewrite HN|exact HI]).
  apply (Hstore v meta) in H1.
  destruct (callUserFuncs_shape (userFuncs settings) v meta (storeNode v meta st1))
    as (_ & HN2 & HF2).
  assert (H3 : I (callUserFuncs (userFuncs settings) v meta
                    (storeNode v meta st1)).2)
    by (eapply Hsame; [done|by rewrite HN2|exact H1]).
  destruct (callUserFuncs _ v meta _) as [[err|] st3]; simpl in *; [done|].
  apply walkItems_preserves; try done. intros. by apply IH.
Qed.

Lemma flatOk_storeNode v meta st : flatOk st -> flatOk (storeNode v meta st).
Proof.
  intros [H1 H2]. unfold flatOk; simpl. rewrite map_app; simpl.
  assert (Hlen : length (nodes st) = length (map Path (nodes st)))
    by (by rewrite length_map).
  split.
  - intros p i. destruct (decide (Path meta = p)) as [<-|Hne].
    + rewrite lookup_insert_eq. intros [= <-]. rewrite Hlen.
      by rewrite list_lookup_middle.
    + rewrite lookup_insert_ne by done. intros Hp.
      apply lookup_app_l_Some. by apply H1.
  - intros i p Hi. apply lookup_app_Some in Hi as [Hi|[Hge Hi]].
    + destruct (H2 i p Hi) as (j & Hj & Hij).
      destruct (decide (Path meta = p)) as [<-|Hne].
      * exists (length (nodes st)). rewrite lookup_insert_eq. split; [done|].
        apply lookup_lt_Some in Hi. lia.
      * exists j. by rewrite lookup_insert_ne.
    + apply list_lookup_singleton_Some in Hi as [Hi <-].
      exists (length (nodes st)). rewrite lookup_insert_eq. split; [done|]. lia.
Qed.

Lemma walkRecursive_flatOk fuel h settings obj depth path st :
  flatOk st -> flatOk (walkRecursive fuel h settings obj depth path st).2.
Proof.
  apply walkRecursive_preserves.
  - apply flatOk_storeNode.
  - intros s s' HF HN. unfold flatOk. by rewrite HF, HN.
Qed.


(** A call touches its own path and continuations of it only. *)
Lemma walkRecursive_below fuel h settings obj depth path st :
  Within (below path) st (walkRecursive fuel h settings obj depth path st).2.
Proof.
  revert obj depth path st.
  induction fuel as [|fuel IH]; intros obj depth path st; [apply Within_refl|].
  apply walkRecursive_Within_step; [apply below_refl|].
  intros it o s Hin Ho.
  apply (Within_weaken (below (itemPath it))); [|apply IH].
  destruct (childItems_suffix _ _ _ _ _ Hin) as (suf & -> & Hs).
  intros k. by apply below_child.
Qed.


End Unique.

(** ** Callbacks that do not fail leave no mark on the nodes *)
Section Agreement.
Context {U1 U2 Err1 Err2 : Type}.
Implicit Types (a : WalkState U1 Err1) (b : WalkState U2 Err2) (h : Heap).





End Agreement.

(** * Properties of [Walk] *)
Section WalkProperties.
Context {U Err : Type}.
Implicit Types (h : Heap) (obj : Value) (options : list (Option_ U Err)) (u : U).

(** The record of a whole call of [Walk], as one step from the empty
    state. *)
Lemma Walk_Step h obj options u :
  TypeOf obj <> None ->
  exists out,
    Step (mkState ∅ [] ∅ u []) out (Walk h obj options u).2
         (trace (Walk h obj options u).2)
    /\ (Walk h obj options u).1
       = match out with
         | Ret fieldMap =>
             Returned fieldMap (Some (flatMap (Walk h obj options u).2)) None
         | Fail err => Returned None None (Some err)
         | Panic => Panicked
         | OutOfFuel => Diverged
         end.
Proof.
  intros Ht. unfold Walk. destruct (TypeOf obj) as [t|]; [|done].
  destruct (walkRecursive_Step (walkFuel h obj) h (applyOptions options) obj 0
              (rootPathOf t) (mkState ∅ [] ∅ u [])) as (new & HS).
  destruct (walkRecursive _ h _ obj 0 _ _) as [out st]. simpl in *.
  exists out. pose proof (step_trace _ _ _ _ HS) as HT. simpl in HT.
  by rewrite HT.
Qed.

(** C1: when a callback invocation returns an error, that invocation is
    the last thing the walk does (no node is built and no callback runs
    after it), and [Walk] returns nil, nil and that very error. *)
Theorem C1_callback_error_aborts h obj options u v m (e : Err) :
  In (EvCall v m (Some e)) (trace (Walk h obj options u).2) ->
  (Walk h obj options u).1 = Returned None None (Some e)
  /\ exists pre,
       trace (Walk h obj options u).2 = (pre ++ [EvCall v m (Some e)])%list
       /\ quiet pre.
Proof.
  intros Hin.
  destruct (decide (TypeOf obj = None)) as [Hnil|Ht].
  { unfold Walk in Hin. rewrite Hnil in Hin. destruct Hin. }
  destruct (Walk_Step h obj options u Ht) as (out & HS & ->).
  pose proof (step_error _ _ _ _ HS) as HE.
  assert (Hq : forall l, quiet l -> In (EvCall v m (Some e)) l -> False).
  { intros l Hl Hi. unfold quiet in Hl. rewrite Forall_forall in Hl.
    apply list_elem_of_In in Hi. by specialize (Hl _ Hi). }
  destruct out as [r|e'| |]; try (by destruct (Hq _ HE Hin)).
  destruct HE as (pre & v' & m' & Heq & Hpre). rewrite Heq in Hin |- *.
  apply in_app_iff in Hin as [Hin|[Hin|[]]]; [by destruct (Hq _ Hpre Hin)|].
  injection Hin as -> -> ->. split; [done|]. by exists pre.
Qed.




(** The last [MaxDepth] among the options sets the maximum depth. *)
Lemma MaxDepth_last options n :
  maxDepth (applyOptions (U:=U) (Err:=Err) (options ++ [MaxDepth n])) = n.
Proof. unfold applyOptions. by rewrite fold_left_app. Qed.




End WalkProperties.

(** * The cache of nodes *)
Section CacheProperties.
Context {U Err : Type}.


End CacheProperties.

(** * The engine at particular inputs *)
Section Evaluations.
Import Examples.

Lemma walkItems_ext {U Err} (rec1 rec2 : Value -> string -> WalkState U Err ->
      Outcome (Err:=Err) (option nat) * WalkState U Err) id items st :
  (forall o p s, rec1 o p s = rec2 o p s) ->
  walkItems rec1 id items st = walkItems rec2 id items st.
Proof.
  intros Hrec. revert st. induction items as [|it rest IH]; intros st; simpl;
    [done|].
  destruct (itemObj it); [|done]. rewrite Hrec.
  by destruct (rec2 _ _ st) as [[c| | |] st1].
Qed.

(** The engine reads neither [typeFilter] nor [metaFilter]. *)
Lemma walkRecursive_ignores_filters {U Err} fuel h (s1 s2 : walkSettings U Err)
    obj depth path st :
  maxDepth s1 = maxDepth s2 -> includePrivate s1 = includePrivate s2 ->
  onlySettable s1 = onlySettable s2 -> tagFilter s1 = tagFilter s2 ->
  userFuncs s1 = userFuncs s2 ->
  walkRecursive fuel h s1 obj depth path st
  = walkRecursive fuel h s2 obj depth path st.
Proof.
  intros Hd Hp Ho Ht Hu. revert obj depth path st.
  induction fuel as [|fuel IH]; intros obj depth path st; simpl; [done|].
  rewrite Hd, Hu. unfold childItems, structItems. rewrite Hp, Ho, Ht.
  repeat case_match; try done; apply walkItems_ext; intros; apply IH.
Qed.

(** The walk of the self-referential node: the pointer, then the struct
    it refers to; the field that points back is dropped. *)
Example walk_self_loop :
  let r := Walk loopHeap loop [WithUserFunc record] [] in
  user r.2 = ["*main.Node"; "*main.Node.*"]
  /\ r.1 = Returned (Some 0%nat) (Some (flatMap r.2)) None.
Proof. vm_compute. done. Qed.

(** The nested record under the default depth: all four levels. *)
Example walk_nested_default_depth :
  user (Walk ∅ nested [WithUserFunc record] []).2
  = ["struct { S1 struct { S2 struct { SF1 int } } }";
     "struct { S1 struct { S2 struct { SF1 int } } }.S1";
     "struct { S1 struct { S2 struct { SF1 int } } }.S1.S2";
     "struct { S1 struct { S2 struct { SF1 int } } }.S1.S2.SF1"].
Proof. vm_compute. done. Qed.

(** The same under [MaxDepth(1)]: the root and its member. *)
Example walk_nested_depth_one :
  user (Walk ∅ nested [MaxDepth 1; WithUserFunc record] []).2
  = ["struct { S1 struct { S2 struct { SF1 int } } }";
     "struct { S1 struct { S2 struct { SF1 int } } }.S1"].
Proof. vm_compute. done. Qed.

(** The tag filter is applied to the members of a struct: only the tagged
    member is walked. *)
Example walk_tagged_member_only :
  user (Walk ∅ tagged [WithTagFilter (TagExists "filter" ["true"]);
                       WithUserFunc record] []).2
  = ["Tagged"; "Tagged.Field1"].
Proof. vm_compute. done. Qed.

(** A pointer shared by two entries of a map is walked under the entry
    that comes first: the paths of a walk depend on the order in which the
    map is enumerated. *)
Example walk_shared_pointer_by_map_order :
  user (Walk sharedHeap sharedAB [WithUserFunc record] []).2
  = ["map[string]*int"; "map[string]*int[a]"; "map[string]*int[a].*"]
  /\ user (Walk sharedHeap sharedBA [WithUserFunc record] []).2
     = ["map[string]*int"; "map[string]*int[b]"; "map[string]*int[b].*"].
Proof. vm_compute. done. Qed.

(** C4: the type filter set by [WithTypeFilter] changes nothing in what
    the engine does.  Walking [Pair{Field1 int; Field2 string}] with the
    filter [TypeIsOneOf(int)], which rejects the type string, calls the
    callback at the path of the string member and records that path in the
    flat map. *)
Theorem C4_type_filter_is_not_applied :
  (forall U Err fuel h (settings : walkSettings U Err) f obj depth path st,
     walkRecursive fuel h (WithTypeFilter f settings) obj depth path st
     = walkRecursive fuel h settings obj depth path st)
  /\ TypeIsOneOf [intType] stringType = false
  /\ let r := Walk ∅ pair [WithTypeFilter (TypeIsOneOf [intType]);
                           WithUserFunc record] [] in
     r.1 = Returned (Some 0%nat) (Some (flatMap r.2)) None
     /\ user r.2 = ["Pair"; "Pair.Field1"; "Pair.Field2"]
     /\ flatMap r.2 !! "Pair.Field2" = Some 2%nat
     /\ map Path (nodes r.2) = ["Pair"; "Pair.Field1"; "Pair.Field2"].
Proof.
  split_and!.
  - intros. by apply walkRecursive_ignores_filters.
  - reflexivity.
  - vm_compute. done.
Qed.

(** C5: the metadata filter set by [WithMetaFilter] changes nothing in
    what the engine of [walker.go] does: with a filter that rejects the
    nodes of strings, the string member of [Pair] is still handed to the
    callback, stored in the flat map and attached to the root.  The
    earlier engine drops it. *)
Theorem C5_meta_filter_is_not_applied :
  (forall U Err fuel h (settings : walkSettings U Err) f obj depth path st,
     walkRecursive fuel h (WithMetaFilter f settings) obj depth path st
     = walkRecursive fuel h settings obj depth path st)
  /\ (let r := Walk ∅ pair [WithMetaFilter noStrings; WithUserFunc record] [] in
      noStrings (newMeta (ValueOf (VLeaf stringType LString "")) "Pair.Field2")
      = false
      /\ user r.2 = ["Pair"; "Pair.Field1"; "Pair.Field2"]
      /\ flatMap r.2 !! "Pair.Field2" = Some 2%nat
      /\ Children <$> nodes r.2 !! 0%nat = Some [1%nat; 2%nat])
  /\ (let r := Legacy.Walk ∅ pair record [Legacy.WithMetaFilter noStrings] [] in
      user r.2 = ["Pair"; "Pair.Field1"]
      /\ flatMap r.2 !! "Pair.Field2" = None
      /\ Children <$> nodes r.2 !! 0%nat = Some [1%nat]).
Proof.
  split_and!.
  - intros. by apply walkRecursive_ignores_filters.
  - vm_compute. done.
  - vm_compute. done.
Qed.

(** C6: under the default settings and without any callback, [Walk]
    panics on a struct that has an unexported field, and on the nil
    interface. *)
Theorem C6_unexported_field_panics :
  (Walk (U:=unit) (Err:=string) ∅ hidden [] tt).1 = Panicked
  /\ (Walk (U:=unit) (Err:=string) ∅ VNil [] tt).1 = Panicked
  /\ includePrivate (applyOptions (U:=unit) (Err:=string) []) = true.
Proof. vm_compute. done. Qed.

(** C7: [IsPrivate] tells whether the type of the value has a package
    path, not whether the field is exported: the node of the exported
    field [F] of [Outer], whose type [Inner] is declared in package main,
    has it set. *)
Theorem C7_IsPrivate_follows_type_package :
  (forall v path,
     IsPrivate (newMeta v path) = negb (bool_decide (tPkgPath (v_Type v) = "")))
  /\ (let r := Walk (U:=unit) (Err:=string) ∅ outer [] tt in
      exists m, nodes r.2 !! 1%nat = Some m
                /\ Path m = "Outer.F" /\ IsPrivate m = true
                /\ isExported (mkField "F" "" []) = true).
Proof.
  split; [done|]. eexists. vm_compute. done.
Qed.



(** A callback that fails at the third node: [Walk] returns its error
    and nothing else. *)
Lemma C1_witness_error_at_third_node :
  (Walk ∅ pair [WithUserFunc (failAt "Pair.Field2")] tt).1
  = Returned None None (Some "boom").
Proof.
  eapply proj1.
  eapply (C1_callback_error_aborts ∅ pair
            [WithUserFunc (failAt "Pair.Field2")] tt).
  vm_compute. do 5 right. left. reflexivity.
Defined.






End Evaluations.

(** * The option constructors and the filters they install *)
Section OptionProperties.
Import Options.
Context {U Err : Type}.
Implicit Types (cs : list (OptionCall U Err)) (s : walkSettings U Err).

Lemma fold_options cs s :
  let r := fold_left (fun s option => option s) (map optionOf cs) s in
  maxDepth r = default (maxDepth s) (last (omap depthOf cs))
  /\ includePrivate r = includePrivate s || existsb isPrivateFields cs
  /\ onlySettable r = onlySettable s || existsb isOnlySettable cs
  /\ tagFilter r = from_option Some (tagFilter s) (last (omap tagFilterOf cs))
  /\ typeFilter r = from_option Some (typeFilter s) (last (omap typeFilterOf cs))
  /\ metaFilter r = from_option Some (metaFilter s) (last (omap metaFilterOf cs))
  /\ userFuncs r = (userFuncs s ++ omap userFuncOf cs)%list.
Proof.
  induction cs as [|c cs IH] using rev_ind; simpl.
  - by rewrite !orb_false_r, app_nil_r.
  - rewrite map_app, fold_left_app, !omap_app, existsb_app, existsb_app. simpl.
    destruct IH as (H1 & H2 & H3 & H4 & H5 & H6 & H7).
    destruct c; simpl; rewrite ?app_nil_r, ?last_snoc, ?orb_false_r, ?orb_true_r;
      simpl; split_and!; try done.
    rewrite app_assoc. f_equal. exact H7.
Qed.

Lemma fold_without_PrivateFields cs s :
  includePrivate s = true ->
  fold_left (fun s option => option s) (map optionOf cs) s
  = fold_left (fun s option => option s)
      (map optionOf (filter (fun c => isPrivateFields c = false) cs)) s.
Proof.
  assert (Hk : forall (c : OptionCall U Err) s0,
            includePrivate s0 = true -> includePrivate (optionOf c s0) = true).
  { intros [] [] ?; simpl in *; by subst. }
  revert s. induction cs as [|c cs IH]; intros s Hs; simpl; [done|].
  rewrite filter_cons. pose proof (Hk c s Hs) as Hc.
  destruct c; simpl in *; try (by apply IH).
  rewrite <- IH by done. f_equal. destruct s; simpl in *. by subst.
Qed.

(** X1: the options are applied from left to right to the default
    settings.  The maximum depth, the tag, type and metadata filters are
    those of the last option that sets them (10 and no filter when none
    does); the callbacks are all those registered, in the order of
    registration; [OnlySettable] cannot be undone; and private fields are
    included whatever the options are, so [PrivateFields] changes
    nothing. *)
Theorem X1_options_apply_left_to_right cs :
  let s := applyOptions (map optionOf cs) in
  maxDepth s = default 10 (last (omap depthOf cs))
  /\ includePrivate s = true
  /\ onlySettable s = existsb isOnlySettable cs
  /\ tagFilter s = last (omap tagFilterOf cs)
  /\ typeFilter s = last (omap typeFilterOf cs)
  /\ metaFilter s = last (omap metaFilterOf cs)
  /\ userFuncs s = omap userFuncOf cs
  /\ s = applyOptions
           (map optionOf (filter (fun c => isPrivateFields c = false) cs)).
Proof.
  intros s. unfold s, applyOptions.
  destruct (fold_options cs defaultSettings) as (H1 & H2 & H3 & H4 & H5 & H6 & H7).
  simpl in *. split_and!; try done.
  - etrans; [exact H4|]. by destruct (last (omap tagFilterOf cs)).
  - etrans; [exact H5|]. by destruct (last (omap typeFilterOf cs)).
  - etrans; [exact H6|]. by destruct (last (omap metaFilterOf cs)).
  - by apply fold_without_PrivateFields.
Qed.

End OptionProperties.

Section FilterProperties.

Lemma existsb_bool_decide {A} `{EqDecision A} (x : A) (l : list A) :
  existsb (fun y => bool_decide (x = y)) l = true <-> In x l.
Proof.
  rewrite existsb_exists. split.
  - intros (y & Hy & Heq). apply bool_decide_eq_true_1 in Heq. by subst.
  - intros Hx. exists x. split; [done|]. by apply bool_decide_eq_true_2.
Qed.

Lemma IgnoreTag_negb key values tag :
  IgnoreTag key values tag = negb (TagExists key values tag).
Proof.
  unfold TagExists, IgnoreTag.
  destruct (tag_Lookup tag key); [|done]. by destruct values.
Qed.

(** X2: [TagExists(key, values...)] accepts a tag exactly when the tag
    has the key and, if values are given, the value of the key is one of
    them; without values the key alone decides.  [IgnoreTag] with the same
    arguments accepts exactly the tags that [TagExists] rejects: a tag
    without the key is kept by [IgnoreTag] and dropped by [TagExists]. *)
Theorem X2_TagExists_and_IgnoreTag_are_complements key values tag :
  (TagExists key values tag = true <->
     exists value, tag_Lookup tag key = Some value
                   /\ (values = [] \/ In value values))
  /\ IgnoreTag key values tag = negb (TagExists key values tag)
  /\ (tag_Lookup tag key = None ->
        TagExists key values tag = false /\ IgnoreTag key values tag = true).
Proof.
  split_and!; [|apply IgnoreTag_negb|]; unfold TagExists, IgnoreTag.
  - destruct (tag_Lookup tag key) as [tagValue|].
    + destruct values as [|w ws].
      * split; [|done]. intros _. exists tagValue. split; [done|by left].
      * rewrite existsb_bool_decide. split.
        -- intros Hin. exists tagValue. split; [done|by right].
        -- by intros (value & [= <-] & [?|?]).
    + split; [done|]. by intros (value & ? & _).
  - by intros ->.
Qed.


Lemma forallb_negb_existsb {A} (f : A -> bool) (l : list A) :
  forallb (fun x => negb (f x)) l = negb (existsb f l).
Proof.
  induction l as [|x l IH]; simpl; [done|]. rewrite IH. by destruct (f x).
Qed.

(** X4: the combinators.  [AllTagFilters] and [AllMetaFilters] accept
    when every filter accepts (so with no filter they accept everything),
    [AnyTagFilter] and [AnyMetaFilter] when some filter accepts (so with
    no filter they reject everything); a combinator applied to combined
    filters is the combinator of the concatenated lists; and keeping
    what is outside each of several tag sets is rejecting what is inside
    any of them. *)
Theorem X4_filter_combinators
    (tfs tgs : list TagFilter) (mfs mgs : list MetaFilter)
    (keys : list (string * list string)) tag meta :
  (AllTagFilters tfs tag = true <-> forall f, In f tfs -> f tag = true)
  /\ (AnyTagFilter tfs tag = true <-> exists f, In f tfs /\ f tag = true)
  /\ (AllMetaFilters mfs meta = true <-> forall f, In f mfs -> f meta = true)
  /\ (AnyMetaFilter mfs meta = true <-> exists f, In f mfs /\ f meta = true)
  /\ AllTagFilters [] tag = true /\ AnyTagFilter [] tag = false
  /\ AllMetaFilters [] meta = true /\ AnyMetaFilter [] meta = false
  /\ AllTagFilters [AllTagFilters tfs; AllTagFilters tgs] tag
     = AllTagFilters (tfs ++ tgs) tag
  /\ AnyTagFilter [AnyTagFilter tfs; AnyTagFilter tgs] tag
     = AnyTagFilter (tfs ++ tgs) tag
  /\ AllMetaFilters [AllMetaFilters mfs; AllMetaFilters mgs] meta
     = AllMetaFilters (mfs ++ mgs) meta
  /\ AnyMetaFilter [AnyMetaFilter mfs; AnyMetaFilter mgs] meta
     = AnyMetaFilter (mfs ++ mgs) meta
  /\ AllTagFilters (map (fun kv => IgnoreTag kv.1 kv.2) keys) tag
     = negb (AnyTagFilter (map (fun kv => TagExists kv.1 kv.2) keys) tag).
Proof.
  unfold AllTagFilters, AnyTagFilter, AllMetaFilters, AnyMetaFilter.
  split_and!; try done.
  - apply forallb_forall.
  - apply existsb_exists.
  - apply forallb_forall.
  - apply existsb_exists.
  - simpl. by rewrite forallb_app, andb_true_r.
  - simpl. by rewrite existsb_app, orb_false_r.
  - simpl. by rewrite forallb_app, andb_true_r.
  - simpl. by rewrite existsb_app, orb_false_r.
  - rewrite <- forallb_negb_existsb. induction keys as [|[k vs] keys IH]; [done|].
    simpl. rewrite IH. f_equal. apply IgnoreTag_negb.
Qed.

End FilterProperties.

(** * The nodes as a tree *)
Section Links.
Import Tree.
Context {U Err : Type}.
Implicit Types (st : WalkState U Err) (settings : walkSettings U Err).
Implicit Types (h : Heap) (ns : list FieldMeta).

Lemma framed_refl ns : framed ns ns.
Proof. by split. Qed.

Lemma framed_trans ns1 ns2 ns3 : framed ns1 ns2 -> framed ns2 ns3 -> framed ns1 ns3.
Proof.
  intros [L1 H1] [L2 H2]. split; [lia|].
  intros i Hi. rewrite H2 by lia. by apply H1.
Qed.

Lemma framed_app ns more : framed ns (ns ++ more).
Proof.
  split; [rewrite length_app; lia|]. intros i Hi. by apply lookup_app_l.
Qed.

Lemma framed_attach ns id c ns' :
  (length ns <= id)%nat -> (length ns <= c)%nat -> framed ns ns' ->
  framed ns (alter (setParent id) c (alter (addChild c) id ns')).
Proof.
  intros Hid Hc [L H]. split; [by rewrite !length_alter|].
  intros i Hi. rewrite !list_lookup_alter_ne by lia. by apply H.
Qed.

Lemma framed_eq ns ns' : framed ns ns' -> exists more, ns' = (ns ++ more)%list.
Proof.
  intros [L H]. exists (drop (length ns) ns').
  rewrite <- (take_drop (length ns) ns') at 1. f_equal.
  apply list_eq. intros i. rewrite lookup_take.
  case_decide; [by apply H|]. symmetry. apply lookup_ge_None. lia.
Qed.

Lemma walkItems_framed rec id items st ns :
  (forall o p s, framed (nodes s) (nodes (rec o p s).2)) ->
  (forall o p s c, (rec o p s).1 = Ret (Some c) -> c = length (nodes s)) ->
  (length ns <= id)%nat -> framed ns (nodes st) ->
  framed ns (nodes (walkItems rec id items st).2).
Proof.
  intros Hrec Hret Hid. revert st.
  induction items as [|it rest IH]; intros st Hst; simpl; [done|].
  destruct (itemObj it) as [obj|]; [|done].
  pose proof (Hrec obj (itemPath it) st) as H1.
  pose proof (Hret obj (itemPath it) st) as H2.
  destruct (rec obj (itemPath it) st) as [[childMeta| | |] st1]; simpl in *;
    try by eapply framed_trans.
  apply IH. destruct childMeta as [c|]; simpl; [|by eapply framed_trans].
  apply framed_attach; [done| |by eapply framed_trans].
  rewrite (H2 c eq_refl). apply Hst.
Qed.

Lemma walkRecursive_framed fuel h settings obj depth path st :
  framed (nodes st) (nodes (walkRecursive fuel h settings obj depth path st).2).
Proof.
  revert obj depth path st.
  induction fuel as [|fuel IH]; intros obj depth path st; simpl;
    [apply framed_refl|].
  destruct (depth >? maxDepth settings); [apply framed_refl|].
  destruct (negb (v_IsValid (ValueOf obj)) || negb (v_CanInterface (ValueOf obj)));
    [apply framed_refl|].
  destruct (cycleGuard (ValueOf obj) st) as [st1|] eqn:Hguard;
    [|apply framed_refl].
  apply cycleGuard_Some in Hguard as (_ & HN & _).
  set (v := ValueOf obj). set (meta := newMeta v path).
  destruct (callUserFuncs_shape (userFuncs settings) v meta (storeNode v meta st1))
    as (_ & HN2 & _). simpl in HN2.
  assert (H3 : framed (nodes st)
                 (nodes (callUserFuncs (userFuncs settings) v meta
                           (storeNode v meta st1)).2)).
  { rewrite HN2, HN. apply framed_app. }
  destruct (callUserFuncs _ v meta _) as [[err|] st3]; simpl in *; [done|].
  apply walkItems_framed; [by intros; apply IH| |by rewrite HN|done].
  intros o p s c. apply walkRecursive_ret.
Qed.

(** A call that returns no node has changed nothing. *)
Lemma walkRecursive_none fuel h settings obj depth path st :
  (walkRecursive fuel h settings obj depth path st).1 = Ret None ->
  (walkRecursive fuel h settings obj depth path st).2 = st.
Proof.
  destruct fuel; simpl; [done|].
  destruct (depth >? maxDepth settings); [done|].
  destruct (negb (v_IsValid (ValueOf obj)) || negb (v_CanInterface (ValueOf obj)));
    [done|].
  destruct (cycleGuard (ValueOf obj) st) as [st1|] eqn:Hguard; [|done].
  destruct (callUserFuncs _ _ _ _) as [[err|] st3]; simpl; [done|].
  by intros Hr%walkItems_ret.
Qed.

Lemma grown_refl m : grown m m.
Proof. exists []. rewrite app_nil_r. by destruct m. Qed.

Lemma grown_addChild m m' c : grown m m' -> grown m (addChild c m').
Proof.
  intros [cs ->]. exists (cs ++ [c])%list. unfold addChild; simpl.
  by rewrite app_assoc.
Qed.

Lemma walkItems_own rec id items st m :
  (forall o p s, framed (nodes s) (nodes (rec o p s).2)) ->
  (forall o p s c, (rec o p s).1 = Ret (Some c) -> c = length (nodes s)) ->
  nodes st !! id = Some m ->
  exists m', nodes (walkItems rec id items st).2 !! id = Some m' /\ grown m m'.
Proof.
  intros Hrec Hret. revert st m.
  assert (Hg : forall m0 m1 m2, grown m0 m1 -> grown m1 m2 -> grown m0 m2).
  { intros m0 m1 m2 [cs ->] [cs' ->]. simpl. exists (cs ++ cs')%list.
    by rewrite app_assoc. }
  induction items as [|it rest IH]; intros st m Hm; simpl.
  { exists m. split; [done|apply grown_refl]. }
  destruct (itemObj it) as [obj|]; [|exists m; split; [done|apply grown_refl]].
  pose proof (Hrec obj (itemPath it) st) as [HL HF].
  pose proof (Hret obj (itemPath it) st) as H2.
  pose proof (lookup_lt_Some _ _ _ Hm) as Hlt.
  assert (Hm1 : nodes (rec obj (itemPath it) st).2 !! id = Some m)
    by (by rewrite HF).
  destruct (rec obj (itemPath it) st) as [[childMeta| | |] st1]; simpl in *;
    try (exists m; split; [done|apply grown_refl]).
  destruct childMeta as [c|]; [|by apply IH].
  specialize (H2 c eq_refl).
  match goal with |- context [walkItems rec id rest ?s] =>
    destruct (IH s (addChild c m)) as (m' & Hm' & Hgr) end.
  { simpl. rewrite list_lookup_alter_ne by lia.
    rewrite list_lookup_alter. rewrite decide_True by done. by rewrite Hm1. }
  exists m'. split; [done|]. eapply Hg; [|exact Hgr].
  apply grown_addChild, grown_refl.
Qed.

(** The node a call returns is the literal of its value and path, with
    the children the call attached and no parent yet. *)
Lemma walkRecursive_own fuel h settings obj depth path st c :
  (walkRecursive fuel h settings obj depth path st).1 = Ret (Some c) ->
  c = length (nodes st)
  /\ exists m, nodes (walkRecursive fuel h settings obj depth path st).2 !! c
               = Some m
               /\ grown (newMeta (ValueOf obj) path) m.
Proof.
  intros Hr. split; [by eapply walkRecursive_ret|].
  pose proof (walkRecursive_ret _ _ _ _ _ _ _ _ Hr) as ->. revert Hr.
  destruct fuel; simpl; [done|].
  destruct (depth >? maxDepth settings); [done|].
  destruct (negb (v_IsValid (ValueOf obj)) || negb (v_CanInterface (ValueOf obj)));
    [done|].
  destruct (cycleGuard (ValueOf obj) st) as [st1|] eqn:Hguard; [|done].
  apply cycleGuard_Some in Hguard as (_ & HN & _).
  set (v := ValueOf obj). set (meta := newMeta v path).
  destruct (callUserFuncs_shape (userFuncs settings) v meta (storeNode v meta st1))
    as (_ & HN2 & _). simpl in HN2.
  destruct (callUserFuncs _ v meta _) as [[err|] st3]; simpl in *; [done|].
  intros _. rewrite <- HN. apply walkItems_own.
  - intros. apply walkRecursive_framed.
  - intros o p s c. apply walkRecursive_ret.
  - rewrite HN2. by apply list_lookup_middle.
Qed.

Lemma linked_snoc ns m :
  linked ns -> Parent m = None -> Children m = [] -> linked (ns ++ [m]).
Proof.
  intros HL HP HC i mi Hi.
  apply lookup_app_Some in Hi as [Hi|[Hge Hi]].
  - destruct (HL i mi Hi) as (H1 & H2 & H3). split_and!; [| |done].
    + intros p Hp. destruct (H1 p Hp) as (Hlt & pm & Hpm & Hin).
      split; [done|]. exists pm. split; [|done]. by apply lookup_app_l_Some.
    + intros c Hc. destruct (H2 c Hc) as (Hlt & cm & Hcm & Hrest).
      split; [done|]. exists cm. split; [|done]. by apply lookup_app_l_Some.
  - apply list_lookup_singleton_Some in Hi as [_ <-]. split_and!.
    + intros p. by rewrite HP.
    + intros c. rewrite HC. by intros ?%elem_of_nil.
    + intros j k x y. by rewrite HC.
Qed.

Lemma linked_attach ns id c mi mc suf :
  linked ns -> ns !! id = Some mi -> ns !! c = Some mc -> (id < c)%nat ->
  Parent mc = None -> (forall x, x ∈ Children mi -> (x < c)%nat) ->
  Path mc = Path mi +:+ suf -> startsWith isSep suf = true ->
  linked (alter (setParent id) c (alter (addChild c) id ns)).
Proof.
  intros HL Hid Hc Hlt HP Hbelow Hpath Hsuf.
  set (ns' := alter (setParent id) c (alter (addChild c) id ns)).
  assert (Lc : ns' !! c = Some (setParent id mc)).
  { unfold ns'. rewrite list_lookup_alter, decide_True by done.
    rewrite list_lookup_alter_ne by lia. by rewrite Hc. }
  assert (Li : ns' !! id = Some (addChild c mi)).
  { unfold ns'. rewrite list_lookup_alter_ne by lia.
    rewrite list_lookup_alter, decide_True by done. by rewrite Hid. }
  assert (Lo : forall i, i <> c -> i <> id -> ns' !! i = ns !! i).
  { intros i H1 H2. unfold ns'. by rewrite !list_lookup_alter_ne. }
  destruct (HL id mi Hid) as (Pi & Ci & Si).
  destruct (HL c mc Hc) as (Pc & Cc & Sc).
  intros i m Hi.
  destruct (decide (i = c)) as [->|Hic];
    [|destruct (decide (i = id)) as [->|Hii]].
  - rewrite Lc in Hi. injection Hi as <-. simpl. split_and!; [| |done].
    + intros p [= <-]. split; [done|]. exists (addChild c mi). split; [done|].
      simpl. apply elem_of_app. right. by apply list_elem_of_singleton.
    + intros x Hx. destruct (Cc x Hx) as (Hcx & cm & Hcm & Hrest).
      split; [done|]. exists cm. split; [|done]. rewrite Lo by lia. done.
  - rewrite Li in Hi. injection Hi as <-. simpl. split_and!.
    + intros p Hp. destruct (Pi p Hp) as (Hpi & pm & Hpm & Hin).
      split; [done|]. exists pm. split; [|done]. rewrite Lo by lia. done.
    + intros x [Hx|Hx%list_elem_of_singleton]%elem_of_app; [|subst x].
      * destruct (Ci x Hx) as (Hix & cm & Hcm & Hrest). split; [done|].
        exists cm. split; [|done]. specialize (Hbelow x Hx).
        rewrite Lo by lia. done.
      * split; [done|]. exists (setParent id mc). split; [done|]. simpl.
        split; [done|]. by exists suf.
    + intros j k x y Hj Hk Hjk.
      apply lookup_app_Some in Hk as [Hk|[Hge Hk]].
      * apply lookup_app_Some in Hj as [Hj|[Hge' Hj]]; [by eapply Si|].
        apply lookup_lt_Some in Hk. lia.
      * apply list_lookup_singleton_Some in Hk as [Hk0 <-].
        apply lookup_app_Some in Hj as [Hj|[Hge' Hj]].
        -- apply Hbelow. by eapply list_elem_of_lookup_2.
        -- apply list_lookup_singleton_Some in Hj as [Hj _]. lia.
  - rewrite Lo in Hi by done. destruct (HL i m Hi) as (Pm & Cm & Sm).
    split_and!; [| |done].
    + intros p Hp. destruct (Pm p Hp) as (Hpi & pm & Hpm & Hin). split; [done|].
      destruct (decide (p = c)) as [->|Hpc];
        [|destruct (decide (p = id)) as [->|Hpi']].
      * exists (setParent id mc). split; [done|]. simpl. congruence.
      * exists (addChild c mi). split; [done|]. simpl.
        apply elem_of_app. left. congruence.
      * exists pm. split; [|done]. by rewrite Lo.
    + intros x Hx. destruct (Cm x Hx) as (Hix & cm & Hcm & Hpar & Hrest).
      split; [done|].
      destruct (decide (x = c)) as [->|Hxc]; [congruence|].
      destruct (decide (x = id)) as [->|Hxi].
      * exists (addChild c mi). split; [done|]. simpl.
        assert (cm = mi) as -> by congruence. done.
      * exists cm. split; [|done]. by rewrite Lo.
Qed.

Lemma walkItems_linked rec id items st path mi :
  (forall o p s, framed (nodes s) (nodes (rec o p s).2)) ->
  (forall o p s c, (rec o p s).1 = Ret (Some c) ->
     c = length (nodes s)
     /\ exists m, nodes (rec o p s).2 !! c = Some m /\ Parent m = None
                  /\ Path m = p) ->
  (forall o p s, linked (nodes s) -> linked (nodes (rec o p s).2)) ->
  Forall (fun it => exists suf, itemPath it = path +:+ suf
                                /\ startsWith isSep suf = true) items ->
  linked (nodes st) -> nodes st !! id = Some mi -> Path mi = path ->
  linked (nodes (walkItems rec id items st).2).
Proof.
  intros Hrec Hret Hlink. revert st mi.
  induction items as [|it rest IH]; intros st mi Hitems HL Hid Hpath; simpl;
    [done|].
  apply Forall_cons in Hitems as [(suf & Hsuf & Hsep) Hitems].
  destruct (itemObj it) as [obj|]; [|done].
  pose proof (Hrec obj (itemPath it) st) as [HLen HF].
  pose proof (Hret obj (itemPath it) st) as H2.
  pose proof (Hlink obj (itemPath it) st HL) as H3.
  pose proof (lookup_lt_Some _ _ _ Hid) as Hlt.
  assert (Hid1 : nodes (rec obj (itemPath it) st).2 !! id = Some mi)
    by (by rewrite HF).
  destruct (rec obj (itemPath it) st) as [[childMeta| | |] st1]; simpl in *;
    try done.
  destruct childMeta as [c|]; [|by eapply IH].
  destruct (H2 c eq_refl) as (-> & mc & Hmc & HPc & Hpc).
  eapply (IH _ (addChild (length (nodes st)) mi)); try done.
  - simpl. eapply linked_attach; try done.
    + intros x Hx. destruct (HL id mi Hid) as (_ & Ci & _).
      destruct (Ci x Hx) as (_ & cm & Hcm & _). by eapply lookup_lt_Some.
    + by rewrite Hpc, Hpath.
  - simpl. rewrite list_lookup_alter_ne by lia.
    rewrite list_lookup_alter, decide_True by done. by rewrite Hid1.
Qed.

Lemma walkRecursive_linked fuel h settings obj depth path st :
  linked (nodes st) ->
  linked (nodes (walkRecursive fuel h settings obj depth path st).2).
Proof.
  revert obj depth path st.
  induction fuel as [|fuel IH]; intros obj depth path st HL; simpl; [done|].
  destruct (depth >? maxDepth settings); [done|].
  destruct (negb (v_IsValid (ValueOf obj)) || negb (v_CanInterface (ValueOf obj)));
    [done|].
  destruct (cycleGuard (ValueOf obj) st) as [st1|] eqn:Hguard; [|done].
  apply cycleGuard_Some in Hguard as (_ & HN & _).
  set (v := ValueOf obj). set (meta := newMeta v path).
  destruct (callUserFuncs_shape (userFuncs settings) v meta (storeNode v meta st1))
    as (_ & HN2 & _). simpl in HN2.
  assert (H3 : linked (nodes (callUserFuncs (userFuncs settings) v meta
                                (storeNode v meta st1)).2)).
  { rewrite HN2, HN. by apply linked_snoc. }
  destruct (callUserFuncs _ v meta _) as [[err|] st3]; simpl in *; [done|].
  eapply (walkItems_linked _ _ _ _ path meta); try done.
  - intros. apply walkRecursive_framed.
  - intros o p s c Hr. destruct (walkRecursive_own _ _ _ _ _ _ _ _ Hr)
      as (-> & m & Hm & cs & ->).
    split; [done|]. by exists (mkMeta (Name (newMeta (ValueOf o) p))
      (Type_ (newMeta (ValueOf o) p)) (CanSet (newMeta (ValueOf o) p))
      (IsPrivate (newMeta (ValueOf o) p)) p None cs).
  - intros. by apply IH.
  - apply Forall_forall. intros it Hin%list_elem_of_In.
    by eapply childItems_suffix.
  - rewrite HN2. by apply list_lookup_middle.
Qed.

(** When a call returns, every node built below its own has been given
    a parent. *)
Lemma walkItems_parents rec id items st r :
  (forall o p s, framed (nodes s) (nodes (rec o p s).2)) ->
  (forall o p s c, (rec o p s).1 = Ret (Some c) -> c = length (nodes s)) ->
  (forall o p s, (rec o p s).1 = Ret None -> (rec o p s).2 = s) ->
  (forall o p s c, (rec o p s).1 = Ret c ->
     forall i m, (length (nodes s) < i)%nat -> nodes (rec o p s).2 !! i = Some m ->
                 is_Some (Parent m)) ->
  (id < length (nodes st))%nat ->
  (forall i m, (id < i)%nat -> nodes st !! i = Some m -> is_Some (Parent m)) ->
  (walkItems rec id items st).1 = Ret r ->
  forall i m, (id < i)%nat -> nodes (walkItems rec id items st).2 !! i = Some m ->
              is_Some (Parent m).
Proof.
  intros Hrec Hret Hnone Hpar. revert st.
  induction items as [|it rest IH]; intros st Hid Hst; simpl; [by intros _|].
  destruct (itemObj it) as [obj|]; [|done].
  pose proof (Hrec obj (itemPath it) st) as [HLen HF].
  pose proof (Hret obj (itemPath it) st) as H2.
  pose proof (Hnone obj (itemPath it) st) as H3.
  pose proof (Hpar obj (itemPath it) st) as H4.
  destruct (rec obj (itemPath it) st) as [[childMeta| | |] st1]; simpl in *;
    try done.
  destruct childMeta as [c|].
  - specialize (H2 c eq_refl) as ->. specialize (H4 _ eq_refl).
    apply IH; simpl; [by rewrite !length_alter; lia|].
    intros i m Hi. rewrite list_lookup_alter.
    case_decide as Hc.
    + subst i. rewrite list_lookup_alter_ne by lia.
      destruct (nodes st1 !! length (nodes st)); simpl; [|done].
      intros [= <-]. simpl. by eexists.
    + rewrite list_lookup_alter_ne by lia. intros Hm.
      destruct (decide (i < length (nodes st))%nat) as [Hlt|Hge].
      * rewrite HF in Hm by done. by eapply Hst.
      * eapply H4; [|done]. lia.
  - rewrite (H3 eq_refl). by apply IH.
Qed.

Lemma walkRecursive_parents fuel h settings obj depth path st r :
  (walkRecursive fuel h settings obj depth path st).1 = Ret r ->
  forall i m, (length (nodes st) < i)%nat ->
    nodes (walkRecursive fuel h settings obj depth path st).2 !! i = Some m ->
    is_Some (Parent m).
Proof.
  revert obj depth path st r.
  induction fuel as [|fuel IH]; intros obj depth path st r; simpl; [done|].
  assert (Hnone : forall i m, (length (nodes st) < i)%nat ->
            nodes st !! i = Some m -> is_Some (Parent m)).
  { intros i m Hi Hm%lookup_lt_Some. lia. }
  destruct (depth >? maxDepth settings); [done|].
  destruct (negb (v_IsValid (ValueOf obj)) || negb (v_CanInterface (ValueOf obj)));
    [done|].
  destruct (cycleGuard (ValueOf obj) st) as [st1|] eqn:Hguard; [|done].
  apply cycleGuard_Some in Hguard as (_ & HN & _).
  set (v := ValueOf obj). set (meta := newMeta v path).
  destruct (callUserFuncs_shape (userFuncs settings) v meta (storeNode v meta st1))
    as (_ & HN2 & _). simpl in HN2.
  destruct (callUserFuncs _ v meta _) as [[err|] st3]; simpl in *; [done|].
  rewrite <- HN.
  apply walkItems_parents.
  - intros. apply walkRecursive_framed.
  - intros o p s c. apply walkRecursive_ret.
  - intros o p s. apply walkRecursive_none.
  - intros o p s c. apply IH.
  - rewrite HN2, length_app. simpl. lia.
  - intros i m Hi Hm%lookup_lt_Some. rewrite HN2, length_app in Hm.
    simpl in Hm. lia.
Qed.

(** X5: a call of [walkRecursive] leaves alone what was there when it
    began.  The nodes built before keep their place and their content
    (the call appends its own), the record of events and the visited set
    only grow, no key of the flat map is lost, only keys at the path of
    the call or below it get a new node, and a call that returns no node
    has changed nothing at all. *)
Theorem X5_call_keeps_what_was_built_before fuel h settings obj depth path st :
  let r := walkRecursive fuel h settings obj depth path st in
  (exists more, nodes r.2 = (nodes st ++ more)%list)
  /\ (exists new, trace r.2 = (trace st ++ new)%list)
  /\ visited st ⊆ visited r.2
  /\ (forall k, is_Some (flatMap st !! k) -> is_Some (flatMap r.2 !! k))
  /\ (forall k, flatMap r.2 !! k <> flatMap st !! k -> below path k)
  /\ (r.1 = Ret None -> r.2 = st).
Proof.
  intros r. unfold r. split_and!.
  - apply framed_eq, walkRecursive_framed.
  - destruct (walkRecursive_Step fuel h settings obj depth path st) as (new & HS).
    exists new. apply HS.
  - destruct (walkRecursive_Step fuel h settings obj depth path st) as (new & HS).
    apply HS.
  - intros k Hk.
    apply (walkRecursive_preserves (fun s => is_Some (flatMap s !! k))); try done.
    + intros v meta s Hs. simpl.
      destruct (decide (Path meta = k)) as [->|Hne];
        [by rewrite lookup_insert_eq|by rewrite lookup_insert_ne].
    + intros s s' HF _. by rewrite HF.
  - apply (walkRecursive_below fuel h settings obj depth path st).
  - apply walkRecursive_none.
Qed.

(** X6: the nodes of a walk form a tree.  At any moment the parent and
    child pointers fit each other: a parent is an earlier node that lists
    the node among its children, a child is a later node whose path
    continues the path of its parent by one segment, and children are
    listed in the order they were built.  When [Walk] returns without
    error, the root is the first node, it is the literal of the value
    walked with its children attached and has no parent, and every other
    node has a parent; when it returns no root, nothing was built. *)
Theorem X6_nodes_form_a_tree h obj (options : list (Option_ U Err)) u :
  let final := (Walk h obj options u).2 in
  linked (nodes final)
  /\ forall root fm,
       (Walk h obj options u).1 = Returned root (Some fm) None ->
       match root with
       | None => nodes final = [] /\ fm = ∅
       | Some r =>
           r = 0%nat
           /\ (exists t m, TypeOf obj = Some t /\ nodes final !! 0%nat = Some m
                 /\ grown (newMeta (ValueOf obj) (rootPathOf t)) m
                 /\ Parent m = None)
           /\ forall i m, (0 < i)%nat -> nodes final !! i = Some m ->
                          is_Some (Parent m)
       end.
Proof.
  intros final. unfold final, Walk.
  assert (H0 : linked ([] : list FieldMeta)) by (by intros i m Hi).
  destruct (TypeOf obj) as [t|]; [|done].
  set (st0 := mkState ∅ [] ∅ u []).
  pose proof (walkRecursive_linked (walkFuel h obj) h (applyOptions options) obj 0
                (rootPathOf t) st0 H0) as HL.
  pose proof (walkRecursive_own (walkFuel h obj) h (applyOptions options) obj 0
                (rootPathOf t) st0) as HO.
  pose proof (walkRecursive_none (walkFuel h obj) h (applyOptions options) obj 0
                (rootPathOf t) st0) as HN.
  pose proof (walkRecursive_parents (walkFuel h obj) h (applyOptions options) obj
                0 (rootPathOf t) st0) as HP.
  destruct (walkRecursive _ h _ obj 0 _ st0) as [out st]. simpl in *.
  split; [done|]. intros root fm Hr. destruct out; simplify_eq.
  destruct root as [r|].
  - destruct (HO r eq_refl) as (-> & m & Hm & Hg). split_and!; [done| |].
    + exists t, m. split_and!; try done. by destruct Hg as [cs ->].
    + intros i m' Hi. by eapply HP.
  - by rewrite (HN eq_refl).
Qed.

End Links.

(** * What the nodes and the callbacks are given *)
Section Literals.
Context {U Err : Type}.
Implicit Types (st : WalkState U Err) (settings : walkSettings U Err).
Implicit Types (h : Heap).

Lemma valid_nonnil obj :
  negb (v_IsValid (ValueOf obj)) || negb (v_CanInterface (ValueOf obj)) = false ->
  obj <> VNil.
Proof. by destruct obj. Qed.

Lemma flat_map_nil {A B} (f : A -> list B) (l : list A) :
  (forall x, f x = []) -> flat_map f l = [].
Proof. intros Hf. induction l as [|x l IH]; simpl; [done|]. by rewrite Hf, IH. Qed.

Lemma Forall_attach (Q : FieldMeta -> Prop) id c (ns : list FieldMeta) :
  (forall m x, Q m -> Q (addChild x m)) -> (forall m x, Q m -> Q (setParent x m)) ->
  Forall Q ns -> Forall Q (alter (setParent id) c (alter (addChild c) id ns)).
Proof.
  intros Ha Hp HQ. apply Forall_alter; [apply Forall_alter; [done|]|].
  - intros m _. apply Ha.
  - intros m _. apply Hp.
Qed.

Lemma walkItems_nodes (Q : FieldMeta -> Prop) rec id items st :
  (forall m x, Q m -> Q (addChild x m)) -> (forall m x, Q m -> Q (setParent x m)) ->
  (forall o p s, Forall Q (nodes s) -> Forall Q (nodes (rec o p s).2)) ->
  Forall Q (nodes st) -> Forall Q (nodes (walkItems rec id items st).2).
Proof.
  intros Ha Hp Hrec. revert st.
  induction items as [|it rest IH]; intros st HQ; simpl; [done|].
  destruct (itemObj it) as [obj|]; [|done].
  pose proof (Hrec obj (itemPath it) st HQ) as H1.
  destruct (rec obj (itemPath it) st) as [[childMeta| | |] st1]; simpl in *;
    try done.
  apply IH. destruct childMeta; [|done]. simpl. by apply Forall_attach.
Qed.

(** What holds of the literal of every value, and is kept when a child
    or a parent is set, holds of every node. *)
Lemma walkRecursive_nodes (Q : FieldMeta -> Prop) fuel h settings obj depth path st :
  (forall m x, Q m -> Q (addChild x m)) -> (forall m x, Q m -> Q (setParent x m)) ->
  (forall o p, o <> VNil -> Q (newMeta (ValueOf o) p)) ->
  Forall Q (nodes st) ->
  Forall Q (nodes (walkRecursive fuel h settings obj depth path st).2).
Proof.
  intros Ha Hp Hnew. revert obj depth path st.
  induction fuel as [|fuel IH]; intros obj depth path st HQ; simpl; [done|].
  destruct (depth >? maxDepth settings); [done|].
  destruct (negb (v_IsValid (ValueOf obj)) || negb (v_CanInterface (ValueOf obj)))
    eqn:Hvalid; [done|].
  apply valid_nonnil in Hvalid.
  destruct (cycleGuard (ValueOf obj) st) as [st1|] eqn:Hguard; [|done].
  apply cycleGuard_Some in Hguard as (_ & HN & _).
  set (v := ValueOf obj). set (meta := newMeta v path).
  destruct (callUserFuncs_shape (userFuncs settings) v meta (storeNode v meta st1))
    as (_ & HN2 & _). simpl in HN2.
  assert (H3 : Forall Q (nodes (callUserFuncs (userFuncs settings) v meta
                                  (storeNode v meta st1)).2)).
  { rewrite HN2, HN. apply Forall_app. split; [done|].
    repeat constructor. by apply Hnew. }
  destruct (callUserFuncs _ v meta _) as [[err|] st3]; simpl in *; [done|].
  apply walkItems_nodes; try done. intros. by apply IH.
Qed.

Lemma walkItems_events (Q : Event Err -> Prop) rec id items st :
  (forall o p s, Forall Q (trace s) -> Forall Q (trace (rec o p s).2)) ->
  Forall Q (trace st) -> Forall Q (trace (walkItems rec id items st).2).
Proof.
  intros Hrec. revert st.
  induction items as [|it rest IH]; intros st HQ; simpl; [done|].
  destruct (itemObj it) as [obj|]; [|done].
  pose proof (Hrec obj (itemPath it) st HQ) as H1.
  destruct (rec obj (itemPath it) st) as [[childMeta| | |] st1]; simpl in *;
    try done.
  apply IH. by destruct childMeta.
Qed.

(** What holds of the events made of the literal of a value holds of
    every event. *)
Lemma walkRecursive_events (Q : Event Err -> Prop) fuel h settings obj depth
    path st :
  (forall o p id, o <> VNil -> Q (EvBuild (ValueOf o) id (newMeta (ValueOf o) p))) ->
  (forall o p r, o <> VNil -> Q (EvCall (ValueOf o) (newMeta (ValueOf o) p) r)) ->
  Forall Q (trace st) ->
  Forall Q (trace (walkRecursive fuel h settings obj depth path st).2).
Proof.
  intros Hb Hc. revert obj depth path st.
  induction fuel as [|fuel IH]; intros obj depth path st HQ; simpl; [done|].
  destruct (depth >? maxDepth settings); [done|].
  destruct (negb (v_IsValid (ValueOf obj)) || negb (v_CanInterface (ValueOf obj)))
    eqn:Hvalid; [done|].
  apply valid_nonnil in Hvalid.
  destruct (cycleGuard (ValueOf obj) st) as [st1|] eqn:Hguard; [|done].
  apply cycleGuard_Some in Hguard as (HT & _).
  set (v := ValueOf obj). set (meta := newMeta v path).
  destruct (callUserFuncs_trace (userFuncs settings) v meta (storeNode v meta st1))
    as (new & HT2 & Hnew). simpl in HT2.
  assert (H3 : Forall Q (trace (callUserFuncs (userFuncs settings) v meta
                                  (storeNode v meta st1)).2)).
  { rewrite HT2, HT. apply Forall_app. split.
    - apply Forall_app. split; [done|]. repeat constructor. by apply Hb.
    - eapply Forall_impl; [exact Hnew|]. intros ev [r ->]. by apply Hc. }
  destruct (callUserFuncs _ v meta _) as [[err|] st3]; simpl in *; [done|].
  apply walkItems_events; try done. intros. by apply IH.
Qed.

(** X7: nothing a walk reaches can be set.  Every value goes through
    [reflect.ValueOf] before it is looked at, so it is not addressable:
    [CanSet] is false in every node and in the metadata handed to every
    callback, and the value a callback receives is valid, can be turned
    into an interface and cannot be set. *)
Theorem X7_CanSet_is_false_everywhere h obj (options : list (Option_ U Err)) u :
  let final := (Walk h obj options u).2 in
  (forall m, In m (nodes final) -> CanSet m = false)
  /\ (forall v m r, In (EvCall v m r) (trace final) ->
        CanSet m = false /\ v_CanSet v = false
        /\ v_IsValid v = true /\ v_CanInterface v = true).
Proof.
  intros final. unfold final, Walk.
  destruct (TypeOf obj) as [t|]; [|done].
  set (st0 := mkState ∅ [] ∅ u []).
  pose proof (walkRecursive_nodes (fun m => CanSet m = false) (walkFuel h obj) h
                (applyOptions options) obj 0 (rootPathOf t) st0) as HN.
  pose proof (walkRecursive_events
                (fun ev => match ev with
                           | EvCall v m _ =>
                               CanSet m = false /\ v_CanSet v = false
                               /\ v_IsValid v = true /\ v_CanInterface v = true
                           | _ => True
                           end) (walkFuel h obj) h
                (applyOptions options) obj 0 (rootPathOf t) st0) as HE.
  destruct (walkRecursive _ h _ obj 0 _ st0) as [out st]. simpl in *.
  split.
  - intros m Hm%list_elem_of_In. revert m Hm. apply Forall_forall.
    apply HN; try done. intros o p Ho. by destruct o.
  - intros v m r Hin%list_elem_of_In.
    assert (HF : Forall (fun ev => match ev with
                           | EvCall v m _ =>
                               CanSet m = false /\ v_CanSet v = false
                               /\ v_IsValid v = true /\ v_CanInterface v = true
                           | _ => True
                           end) (trace st)).
    { apply HE; try done. intros o p r' Ho. by destruct o. }
    rewrite Forall_forall in HF. apply (HF _ Hin).
Qed.

(** X8: with [OnlySettable] no member of a struct is ever walked: the
    field values of a struct that came out of [reflect.ValueOf] cannot be
    set, so the loop over the fields skips every one of them, before
    [Interface] is called on it.  The call for a struct then touches the
    path of the struct only, builds one node at most and does not panic,
    unexported fields or not. *)
Theorem X8_OnlySettable_skips_every_field fuel h settings t fs depth path st :
  onlySettable settings = true ->
  let r := walkRecursive fuel h settings (VStruct t fs) depth path st in
  childItems h settings path (ValueOf (VStruct t fs)) = []
  /\ r.1 <> Panic
  /\ Within (fun k => k = path) st r.2
  /\ (length (nodes r.2) <= S (length (nodes st)))%nat.
Proof.
  intros Hos r.
  assert (Hitems : childItems h settings path (ValueOf (VStruct t fs)) = []).
  { unfold childItems, structItems; simpl. rewrite Hos.
    apply flat_map_nil. intros [f d]. simpl.
    by destruct (match tagFilter settings with Some _ => _ | None => _ end),
                (negb (includePrivate settings) && negb (isExported f)). }
  split; [done|]. unfold r. destruct fuel; simpl.
  { split_and!; [done|apply Within_refl|lia]. }
  destruct (depth >? maxDepth settings);
    [split_and!; [done|apply Within_refl|simpl; lia]|].
  unfold cycleGuard; simpl.
  set (v := RV (VStruct t fs) false false). set (meta := newMeta v path).
  change (childItems h settings path v) with
    (childItems h settings path (ValueOf (VStruct t fs))). rewrite Hitems.
  destruct (callUserFuncs_shape (userFuncs settings) v meta (storeNode v meta st))
    as (_ & HN2 & _). simpl in HN2.
  pose proof (Within_callUserFuncs (fun k => k = path) (userFuncs settings) v
                meta (storeNode v meta st) eq_refl) as HW.
  pose proof (Within_storeNode (fun k => k = path) v meta st eq_refl) as HW0.
  destruct (callUserFuncs _ v meta _) as [[err|] st3]; simpl in *.
  all: split_and!; [done|by eapply Within_trans|rewrite HN2, length_app; simpl; lia].
Qed.

(** X9: the flat map and the nodes fit, whatever the value: a key of the
    map leads to a node that has the key as its path, and to the last
    node built with that path; and the path of every node is a key of
    the map. *)
Theorem X9_flat_map_holds_last_node_of_each_path h obj
    (options : list (Option_ U Err)) u :
  let final := (Walk h obj options u).2 in
  (forall p i, flatMap final !! p = Some i ->
     exists m, nodes final !! i = Some m /\ Path m = p
               /\ forall j m', nodes final !! j = Some m' -> Path m' = p ->
                               (j <= i)%nat)
  /\ (forall i m, nodes final !! i = Some m -> is_Some (flatMap final !! Path m)).
Proof.
  intros final.
  assert (Hok : flatOk final).
  { assert (H0 : flatOk (mkState (U:=U) (Err:=Err) ∅ [] ∅ u [])).
    { split; simpl; [intros p i|intros i p]; by rewrite ?lookup_empty. }
    unfold final, Walk. destruct (TypeOf obj) as [t|]; [|done].
    pose proof (walkRecursive_flatOk (walkFuel h obj) h (applyOptions options)
                  obj 0 (rootPathOf t) _ H0) as H1.
    by destruct (walkRecursive _ h _ obj 0 _ _) as [out st]. }
  destruct Hok as [H1 H2].
  assert (Hl : forall i m, nodes final !! i = Some m ->
                 map Path (nodes final) !! i = Some (Path m)).
  { intros i m Hi. change (map Path (nodes final)) with (Path <$> nodes final).
    by rewrite list_lookup_fmap, Hi. }
  split.
  - intros p i Hp. pose proof (H1 p i Hp) as Hi.
    change (map Path (nodes final)) with (Path <$> nodes final) in Hi.
    rewrite list_lookup_fmap in Hi.
    destruct (nodes final !! i) as [m|] eqn:Hm; simplify_eq/=.
    exists m. split_and!; try done. intros j m' Hj Hpath.
    destruct (H2 j _ (Hl _ _ Hj)) as (k & Hk & Hle).
    rewrite Hpath, Hp in Hk. by simplify_eq.
  - intros i m Hi. destruct (H2 i _ (Hl _ _ Hi)) as (j & Hj & _). by eexists.
Qed.

End Literals.

(** * Callbacks run once for every node *)
Section BlockProperties.
Import Blocks.
Context {U Err : Type}.
Implicit Types (st : WalkState U Err) (settings : walkSettings U Err).
Implicit Types (h : Heap) (fns : list (UserFunc U Err)).

Lemma ran_refl fns st : ran fns st st [].
Proof.
  split_and!; simpl; try done; by rewrite ?app_nil_r.
Qed.

Lemma ran_trans fns st st1 st2 b1 b2 :
  ran fns st st1 b1 -> ran fns st1 st2 b2 -> ran fns st st2 (b1 ++ b2).
Proof.
  intros (T1 & U1 & I1 & N1 & F1) (T2 & U2 & I2 & N2 & F2).
  assert (HL : length (nodes st1) = (length (nodes st) + length b1)%nat).
  { apply (f_equal length) in N1. by rewrite length_app, !length_map in N1. }
  split_and!.
  - by rewrite T2, T1, flat_map_app, app_assoc.
  - by rewrite U2, U1, fold_left_app.
  - by rewrite map_app, length_app, seq_app, I1, I2, HL.
  - by rewrite N2, N1, map_app, app_assoc.
  - by apply Forall_app.
Qed.

Lemma callUserFuncs_quiet fns v meta st :
  (callUserFuncs fns v meta st).1 = None ->
  trace (callUserFuncs fns v meta st).2
  = (trace st ++ map (fun _ => EvCall v meta None) fns)%list
  /\ user (callUserFuncs fns v meta st).2
     = fold_left (fun u fn => (fn v meta u).1) fns (user st).
Proof.
  revert st. induction fns as [|fn rest IH]; intros st; simpl.
  - by rewrite app_nil_r.
  - destruct (fn v meta (user st)) as [u' [e|]] eqn:Hfn; [done|].
    intros Hq. destruct (IH _ Hq) as [HT HU]. rewrite HT, HU. simpl.
    by rewrite <- app_assoc.
Qed.

Lemma walkItems_ran fns rec id items st r :
  (forall o p s c, (rec o p s).1 = Ret c ->
     exists builds, ran fns s (rec o p s).2 builds) ->
  (walkItems rec id items st).1 = Ret r ->
  exists builds, ran fns st (walkItems rec id items st).2 builds.
Proof.
  intros Hrec. revert st.
  induction items as [|it rest IH]; intros st; simpl.
  { intros _. exists []. apply ran_refl. }
  destruct (itemObj it) as [obj|]; [|done].
  pose proof (Hrec obj (itemPath it) st) as H1.
  destruct (rec obj (itemPath it) st) as [[childMeta| | |] st1]; simpl in *;
    try done.
  destruct (H1 _ eq_refl) as (b1 & Hb1). intros Hr.
  destruct (IH _ Hr) as (b2 & Hb2). exists (b1 ++ b2)%list.
  eapply ran_trans; [exact Hb1|].
  destruct childMeta as [c|]; [|done].
  destruct Hb2 as (T2 & U2 & I2 & N2 & F2). split_and!; try done.
  - simpl in I2. by rewrite !length_alter in I2.
  - by rewrite map_Path_attach in N2.
Qed.

Lemma walkRecursive_ran fuel h settings obj depth path st r :
  (walkRecursive fuel h settings obj depth path st).1 = Ret r ->
  exists builds,
    ran (userFuncs settings) st
        (walkRecursive fuel h settings obj depth path st).2 builds.
Proof.
  revert obj depth path st r.
  induction fuel as [|fuel IH]; intros obj depth path st r; simpl; [done|].
  destruct (depth >? maxDepth settings); [exists []; apply ran_refl|].
  destruct (negb (v_IsValid (ValueOf obj)) || negb (v_CanInterface (ValueOf obj)));
    [exists []; apply ran_refl|].
  destruct (cycleGuard (ValueOf obj) st) as [st1|] eqn:Hguard;
    [|exists []; apply ran_refl].
  apply cycleGuard_Some in Hguard as (HT & HN & _ & HU & _).
  set (v := ValueOf obj). set (meta := newMeta v path).
  destruct (callUserFuncs_shape (userFuncs settings) v meta (storeNode v meta st1))
    as (_ & HN2 & _). simpl in HN2.
  pose proof (callUserFuncs_quiet (userFuncs settings) v meta
                (storeNode v meta st1)) as HQ.
  destruct (callUserFuncs _ v meta _) as [[err|] st3]; simpl in *; [done|].
  destruct (HQ eq_refl) as [HT3 HU3]. intros Hr.
  match goal with |- context [walkItems ?f ?i ?l st3] =>
    destruct (walkItems_ran (userFuncs settings) f i l st3 r) as (b2 & Hb2) end;
    [by intros; eapply IH|done|].
  exists ((v, length (nodes st), meta) :: b2).
  apply (ran_trans _ _ st3 _ [(v, length (nodes st), meta)] b2); [|done].
  split_and!; simpl.
  - by rewrite HT3, HT, HN, app_nil_r, <- app_assoc.
  - by rewrite HU3, HU.
  - done.
  - by rewrite HN2, HN, map_app.
  - by repeat constructor.
Qed.

(** X10: when [Walk] returns without error, the record of the walk is a
    sequence of nodes, each built and then handed to every registered
    callback once, in the order of registration, before the next node is
    built.  The nodes come in the order of their indices, their paths are
    those of the store, each callback got the literal of the node, and
    the state the callbacks share is what these calls make of it, one
    after the other. *)
Theorem X10_every_callback_runs_once_per_node h obj
    (options : list (Option_ U Err)) u root fm :
  (Walk h obj options u).1 = Returned root (Some fm) None ->
  let final := (Walk h obj options u).2 in
  let fns := userFuncs (applyOptions options) in
  exists builds : list Built,
    trace final = flat_map (block fns) builds
    /\ user final = fold_left (runFuncs fns) builds u
    /\ map (fun b : Built => b.1.2) builds = seq 0 (length (nodes final))
    /\ map (fun b : Built => Path b.2) builds = map Path (nodes final)
    /\ Forall (fun b : Built => b.2 = newMeta b.1.1 (Path b.2)) builds.
Proof.
  unfold Walk. destruct (TypeOf obj) as [t|]; [|done].
  set (st0 := mkState ∅ [] ∅ u []).
  pose proof (walkRecursive_ran (walkFuel h obj) h (applyOptions options) obj 0
                (rootPathOf t) st0) as HR.
  destruct (walkRecursive _ h _ obj 0 _ st0) as [out st]. simpl in *.
  intros Hout. destruct out; simplify_eq.
  destruct (HR _ eq_refl) as (builds & T & HU & I & N & F).
  exists builds. simpl in *. split_and!; try done.
  rewrite I. f_equal. apply (f_equal length) in N.
  by rewrite !length_map in N.
Qed.

End BlockProperties.

(** * Panics, and their absence *)
Section Panics.
Import Safety.
Context {U Err : Type}.
Implicit Types (st : WalkState U Err) (settings : walkSettings U Err).
Implicit Types (h : Heap).





Lemma walkItems_panics rec id items st c :
  (exists it, In it items /\ itemObj it = None) ->
  (walkItems rec id items st).1 <> Ret c.
Proof.
  intros (it0 & Hin & Hnone). revert st.
  induction items as [|it rest IH]; intros st; simpl; [done|].
  destruct Hin as [->|Hin]; [by rewrite Hnone|].
  destruct (itemObj it); [|done].
  destruct (rec _ _ st) as [[childMeta| | |] st1]; simpl; try done.
  by apply IH.
Qed.

(** X12: an unexported field that the loop over the fields of the root
    does not skip makes [Walk] panic: [Interface] is called on the field
    value before anything is tested.  With private fields included (they
    always are), without [OnlySettable], with a tag filter (if any) that
    accepts the field and a maximum depth of zero or more, [Walk] of such
    a struct never returns a root: it panics, unless a callback stops the
    walk with its error before the field is reached. *)
Theorem X12_unexported_field_stops_the_walk h t fs
    (options : list (Option_ U Err)) u sf d :
  In (sf, d) fs -> isExported sf = false ->
  includePrivate (applyOptions options) = true ->
  onlySettable (applyOptions options) = false ->
  match tagFilter (applyOptions options) with
  | Some f => f (sfTag sf) = true
  | None => True
  end ->
  0 <= maxDepth (applyOptions options) ->
  (Walk h (VStruct t fs) options u).1 = Panicked
  \/ exists e, (Walk h (VStruct t fs) options u).1 = Returned None None (Some e).
Proof.
  intros Hin Hsf Hip Hos Htag Hd. unfold Walk. simpl TypeOf. cbv iota beta.
  set (st0 := mkState ∅ [] ∅ u []). set (settings := applyOptions options) in *.
  pose proof (walkRecursive_fuel (walkFuel h (VStruct t fs)) h settings
                (VStruct t fs) 0 (rootPathOf t) st0) as HF.
  assert (Hret : forall c,
            (walkRecursive (walkFuel h (VStruct t fs)) h settings (VStruct t fs)
               0 (rootPathOf t) st0).1 <> Ret c).
  { intros c. unfold walkFuel. simpl.
    assert (Hg : (0 >? maxDepth settings) = false)
      by (rewrite Z.gtb_ltb; by apply Z.ltb_ge).
    rewrite Hg. unfold cycleGuard; simpl.
    destruct (callUserFuncs _ _ _ _) as [[err|] st3]; simpl; [done|].
    destruct c as [c|]; [|by intros ?%walkItems_ret].
    apply walkItems_panics.
    exists (mkItem (rootPathOf t +:+ "." +:+ sfName sf) None). split; [|done].
    unfold childItems, structItems; simpl. apply in_flat_map.
    exists (sf, d). split; [done|]. simpl. rewrite Hip, Hos. simpl.
    assert (Ht : match tagFilter settings with
                 | Some f => negb (f (sfTag sf))
                 | None => false
                 end = false).
    { destruct (tagFilter settings); [|done]. by rewrite Htag. }
    rewrite Ht, Hsf. simpl. by left. }
  change (v_Type (ValueOf (VStruct t fs))) with t.
  destruct (walkRecursive _ h settings _ 0 _ st0) as [out st]. simpl in *.
  destruct out as [r|e| |]; [by destruct (Hret r)|right; by exists e|by left|].
  exfalso. apply HF; [|done]. unfold walkFuel. simpl. lia.
Qed.

End Panics.

(** * The guards at the head of a call *)
Section Guards.
Context {U Err : Type}.
Implicit Types (st : WalkState U Err) (settings : walkSettings U Err).
Implicit Types (h : Heap).

Lemma walkItems_pruned rec id items st :
  (forall o p s, (rec o p s).2 = s /\ forall c, (rec o p s).1 <> Ret (Some c)) ->
  (walkItems rec id items st).2 = st.
Proof.
  intros Hrec. induction items as [|it rest IH]; simpl; [done|].
  destruct (itemObj it) as [obj|]; [|done].
  destruct (Hrec obj (itemPath it) st) as [H1 H2].
  destruct (rec obj (itemPath it) st) as [[[c|]| | |] st1]; simpl in *;
    subst; try done.
  by destruct (H2 c).
Qed.

(** X13: a maximum depth below one.  With a negative maximum depth
    [Walk] does nothing: it returns no root, an empty map and no error,
    and calls no callback.  With a maximum depth of zero it builds the
    node of the root and nothing else: the store holds the literal of
    the root, without children, and the flat map its path alone. *)
Theorem X13_MaxDepth_below_one h obj (options : list (Option_ U Err)) u t :
  TypeOf obj = Some t ->
  (maxDepth (applyOptions options) < 0 ->
     Walk h obj options u
     = (Returned None (Some ∅) None, mkState ∅ [] ∅ u []))
  /\ (maxDepth (applyOptions options) = 0 ->
        nodes (Walk h obj options u).2 = [newMeta (ValueOf obj) (rootPathOf t)]
        /\ flatMap (Walk h obj options u).2 = {[ rootPathOf t := 0%nat ]}).
Proof.
  intros Ht. unfold Walk. rewrite Ht. unfold walkFuel. split.
  - intros Hd. simpl.
    assert (Hg : (0 >? maxDepth (applyOptions options)) = true)
      by (rewrite Z.gtb_ltb; by apply Z.ltb_lt).
    by rewrite Hg.
  - intros Hd. simpl. rewrite Hd. simpl.
    assert (Hv : negb (v_IsValid (ValueOf obj))
                 || negb (v_CanInterface (ValueOf obj)) = false)
      by (by destruct obj).
    rewrite Hv.
    destruct (cycleGuard (ValueOf obj) (mkState ∅ [] ∅ u [])) as [st1|] eqn:Hg.
    2: { unfold cycleGuard in Hg. repeat case_match; try done;
           simpl in *; set_solver. }
    apply cycleGuard_Some in Hg as (_ & HN & HF & _). simpl in *.
    set (v := ValueOf obj). set (meta := newMeta v (rootPathOf t)).
    destruct (callUserFuncs_shape (userFuncs (applyOptions options)) v meta
                (storeNode v meta st1)) as (_ & HN2 & HF2).
    simpl in HN2, HF2. rewrite HN in HN2. rewrite HF, HN in HF2.
    destruct (callUserFuncs _ v meta _) as [[err|] st3]; simpl in *;
      [by rewrite HN2, HF2, insert_empty|].
    match goal with |- context [walkItems ?f ?i ?l st3] =>
      pose proof (walkItems_pruned f i l st3) as HP end.
    destruct (walkItems _ _ _ st3) as [out st]. simpl in *.
    rewrite HP; [by rewrite HN2, HF2, insert_empty|].
    intros o p s.
    pose proof (walkRecursive_pruned (extent obj + weight ∅ h) h
                  (applyOptions options) o (int_add 0 1) p s
                  ltac:(rewrite Hd; by vm_compute)) as [H1 _].
    split; [done|]. intros c Hc.
    apply walkRecursive_own in Hc as (-> & m & Hm & _).
    rewrite H1 in Hm. apply lookup_lt_Some in Hm. lia.
Qed.

Lemma builtAddrs_cons (ev : Event Err) (l : list (Event Err)) :
  builtAddrs (ev :: l)
  = match builtAddr ev with
    | Some a => a :: builtAddrs l
    | None => builtAddrs l
    end.
Proof. reflexivity. Qed.

Lemma builtAddrs_app (l1 l2 : list (Event Err)) :
  builtAddrs (l1 ++ l2) = (builtAddrs l1 ++ builtAddrs l2)%list.
Proof. apply omap_app. Qed.

Lemma builtAddrs_calls (new : list (Event Err)) v meta :
  Forall (fun ev => exists r, ev = EvCall v meta r) new -> builtAddrs new = [].
Proof.
  induction 1 as [|ev new [r ->] _ IH]; [done|]. exact IH.
Qed.

(** From [st] to [st'] the events [new] were recorded, and the addresses
    of the non-nil pointers that got a node were added to [visited]. *)
Lemma walkItems_marks rec id items st :
  (forall o p s, exists new,
     trace (rec o p s).2 = (trace s ++ new)%list
     /\ visited (rec o p s).2 = visited s ∪ list_to_set (builtAddrs new)) ->
  exists new,
    trace (walkItems rec id items st).2 = (trace st ++ new)%list
    /\ visited (walkItems rec id items st).2
       = visited st ∪ list_to_set (builtAddrs new).
Proof.
  intros Hrec. revert st.
  assert (H0 : forall st, exists new : list (Event Err),
            trace st = (trace st ++ new)%list
            /\ visited st = visited st ∪ list_to_set (builtAddrs new)).
  { intros st. exists []. rewrite app_nil_r. split; [done|].
    unfold builtAddrs. simpl. set_solver. }
  induction items as [|it rest IH]; intros st; simpl; [done|].
  destruct (itemObj it) as [obj|]; [|done].
  destruct (Hrec obj (itemPath it) st) as (new1 & HT1 & HV1).
  destruct (rec obj (itemPath it) st) as [[childMeta| | |] st1]; simpl in *;
    try by exists new1.
  match goal with |- context [walkItems rec id rest ?s] =>
    destruct (IH s) as (new2 & HT2 & HV2) end.
  exists (new1 ++ new2)%list. rewrite HT2, HV2.
  unfold builtAddrs. rewrite omap_app, list_to_set_app_L.
  destruct childMeta; simpl; rewrite HT1, HV1, app_assoc;
    (split; [done|unfold builtAddrs; set_solver]).
Qed.

Lemma walkRecursive_marks fuel h settings obj depth path st :
  exists new,
    trace (walkRecursive fuel h settings obj depth path st).2
    = (trace st ++ new)%list
    /\ visited (walkRecursive fuel h settings obj depth path st).2
       = visited st ∪ list_to_set (builtAddrs new).
Proof.
  revert obj depth path st.
  assert (H0 : forall st, exists new : list (Event Err),
            trace st = (trace st ++ new)%list
            /\ visited st = visited st ∪ list_to_set (builtAddrs new)).
  { intros st. exists []. rewrite app_nil_r. split; [done|].
    unfold builtAddrs. simpl. set_solver. }
  induction fuel as [|fuel IH]; intros obj depth path st; simpl; [done|].
  destruct (depth >? maxDepth settings); [done|].
  destruct (negb (v_IsValid (ValueOf obj)) || negb (v_CanInterface (ValueOf obj)));
    [done|].
  destruct (cycleGuard (ValueOf obj) st) as [st1|] eqn:Hguard; [|done].
  set (v := ValueOf obj). set (meta := newMeta v path).
  assert (Hb : visited st1
               = visited st
                 ∪ list_to_set (builtAddrs
                     [EvBuild (Err:=Err) v (length (nodes st1)) meta])).
  { unfold cycleGuard in Hguard. unfold builtAddrs, builtAddr. simpl.
    fold v in Hguard. destruct v as [|[] ro ad]; simpl in *; simplify_eq;
      try set_solver.
    all: try (destruct k; simpl in *; simplify_eq; set_solver).
    all: try (destruct isArray; simpl in *; simplify_eq; set_solver).
    destruct (addr =? 0); simpl in *; simplify_eq; [set_solver|].
    case_bool_decide; simplify_eq. simpl. set_solver. }
  apply cycleGuard_Some in Hguard as (HT & _).
  destruct (callUserFuncs_shape (userFuncs settings) v meta (storeNode v meta st1))
    as (HV2 & _). simpl in HV2.
  destruct (callUserFuncs_trace (userFuncs settings) v meta (storeNode v meta st1))
    as (new2 & HT2 & Hnew2). simpl in HT2.
  pose proof (builtAddrs_calls new2 v meta Hnew2) as Hc.
  destruct (callUserFuncs _ v meta _) as [[err|] st3]; simpl in *.
  - exists (EvBuild v (length (nodes st1)) meta :: new2).
    rewrite HT2, HT, HV2, Hb, <- app_assoc. split; [done|].
    rewrite !builtAddrs_cons, Hc. unfold builtAddrs. simpl.
    destruct (builtAddr _); simpl; set_solver.
  - match goal with |- context [walkItems ?f ?i ?l st3] =>
      destruct (walkItems_marks f i l st3) as (new3 & HT3 & HV3) end;
      [by intros; apply IH|].
    exists (EvBuild v (length (nodes st1)) meta :: new2 ++ new3).
    rewrite HT3, HV3, HT2, HT, HV2, Hb, <- !app_assoc. split; [done|].
    rewrite !builtAddrs_cons, builtAddrs_app, Hc. unfold builtAddrs at 1 2.
    simpl. destruct (builtAddr _); simpl; set_solver.
Qed.

(** X14: the visited set holds exactly the addresses of the non-nil
    pointers that got a node.  The nil address never enters it, so every
    nil pointer met during a walk gets a node of its own; and a non-nil
    pointer gets a node the first time its address is met and never
    again. *)
Theorem X14_visited_holds_the_pointers_with_a_node h obj
    (options : list (Option_ U Err)) u :
  let final := (Walk h obj options u).2 in
  (forall a, a ∈ visited final <-> a ∈ builtAddrs (trace final))
  /\ (0 ∉ visited final)
  /\ (forall fuel (settings : walkSettings U Err) t depth path
             (st : WalkState U Err),
        (depth >? maxDepth settings) = false ->
        let r := walkRecursive (S fuel) h settings (VPtr t 0) depth path st in
        visited r.2 = visited st
        /\ nodes r.2 = (nodes st ++ [newMeta (ValueOf (VPtr t 0)) path])%list
        /\ r.1 <> Panic).
Proof.
  intros final.
  assert (H1 : forall a, a ∈ visited final <-> a ∈ builtAddrs (trace final)).
  { unfold final, Walk. destruct (TypeOf obj) as [t|]; [|set_solver].
    destruct (walkRecursive_marks (walkFuel h obj) h (applyOptions options) obj
                0 (rootPathOf t) (mkState ∅ [] ∅ u [])) as (new & HT & HV).
    destruct (walkRecursive _ h _ obj 0 _ _) as [out st]. simpl in *.
    intros a. rewrite HT, HV. set_solver. }
  split_and!; [done| |].
  - rewrite H1. unfold builtAddrs. rewrite list_elem_of_omap.
    intros (ev & _ & Hev). unfold builtAddr in Hev.
    repeat case_match; simplify_eq; done.
  - intros fuel settings t depth path st Hd r. unfold r. simpl. rewrite Hd.
    unfold cycleGuard; simpl.
    set (v := RV (VPtr t 0) false false). set (meta := newMeta v path).
    destruct (callUserFuncs_shape (userFuncs settings) v meta (storeNode v meta st))
      as (HV2 & HN2 & _). simpl in HV2, HN2.
    unfold childItems, ptrItems; simpl.
    by destruct (callUserFuncs _ v meta _) as [[err|] st3].
Qed.

Lemma NoDup_map_inj {A B} (g : A -> B) (l : list A) x y :
  NoDup (map g l) -> In x l -> In y l -> g x = g y -> x = y.
Proof.
  induction l as [|z l IH]; simpl; [done|].
  intros [Hnot Hnd]%NoDup_cons [->|Hx] [->|Hy] Heq; try done.
  - destruct Hnot. rewrite Heq. apply list_elem_of_In, in_map. done.
  - destruct Hnot. rewrite <- Heq. apply list_elem_of_In, in_map. done.
  - by apply IH.
Qed.

(** X15: the tag filter prunes.  A field of a struct whose tag the
    filter rejects is not walked, and nothing below it is: the call for
    the struct makes no event, builds no node and sets no key of the flat
    map at the path of that field or at a path that continues it (the
    fields of the struct having distinct names without separator, as Go
    identifiers are). *)
Theorem X15_rejected_field_is_pruned fuel h settings f t fs depth path st sf d :
  tagFilter settings = Some f -> In (sf, d) fs -> f (sfTag sf) = false ->
  NoDup (map (fun p => sfName (fst p)) fs) ->
  forallb (fun p => okName (sfName (fst p))) fs = true ->
  Within (fun k => ~ below (path +:+ "." +:+ sfName sf) k) st
         (walkRecursive fuel h settings (VStruct t fs) depth path st).2.
Proof.
  intros Htag Hin Hrej Hnd Hok.
  set (P := fun k => k = path
                     \/ exists it, In it (childItems h settings path
                                           (ValueOf (VStruct t fs)))
                                   /\ below (itemPath it) k).
  apply (Within_weaken P).
  - intros k [->|(it & Hit & Hb)] Hk.
    + by eapply (below_longer path ("." +:+ sfName sf)).
    + unfold childItems, structItems in Hit; simpl in Hit.
      apply in_flat_map in Hit as ([f' d'] & Hin' & Hit). rewrite Htag in Hit.
      destruct (f (sfTag f')) eqn:Hacc; simpl in Hit; [|done].
      repeat (match type of Hit with In _ (if ?c then _ else _) =>
                destruct c; [done|] end).
      destruct Hit as [<-|[]]. simpl in Hb.
      pose proof (apart_fields path (map (fun p => sfName (fst p)) fs) Hnd
                    (forallb_Forall_map _ _ _ Hok)) as [_ Hap].
      rewrite map_map in Hap.
      assert (Heq : path +:+ "." +:+ sfName f' = path +:+ "." +:+ sfName sf).
      { apply (Hap _ _ k); try done; apply list_elem_of_In, in_map_iff.
        - by exists (f', d').
        - by exists (sf, d). }
      apply String.app_inj, String.app_inj in Heq.
      assert (Hsame : (f', d') = (sf, d))
        by (by apply (NoDup_map_inj (fun p => sfName (fst p)) fs)).
      simplify_eq. congruence.
  - destruct fuel as [|fuel]; [apply Within_refl|].
    apply walkRecursive_Within_step; [by left|].
    intros it o s Hit Ho.
    apply (Within_weaken (below (itemPath it))); [|apply walkRecursive_below].
    intros k Hk. right. by exists it.
Qed.

End Guards.

(** * The earlier engine *)
Section LegacyProperties.
Context {U Err : Type}.
Implicit Types (st : WalkState U Err) (settings : Legacy.walkSettings).
Implicit Types (h : Heap) (fn : Legacy.UserFunc U Err).

Lemma Legacy_cycleGuard_Some v st st1 :
  Legacy.cycleGuard v st = Some st1 ->
  trace st1 = trace st /\ nodes st1 = nodes st /\ flatMap st1 = flatMap st
  /\ user st1 = user st /\ visited st ⊆ visited st1.
Proof.
  unfold Legacy.cycleGuard. intros H.
  destruct (v_Kind v); simplify_eq; try done.
  all: case_bool_decide; simplify_eq; simpl; split_and!; try done; set_solver.
Qed.

(** A call at a path that has a node in the cache builds nothing and
    calls nothing: it returns that node, or no node. *)
Lemma Legacy_walkRecursive_cached fuel h settings obj fn depth path st id :
  flatMap st !! path = Some id ->
  let r := Legacy.walkRecursive fuel h settings obj fn depth path st in
  trace r.2 = trace st /\ nodes r.2 = nodes st /\ flatMap r.2 = flatMap st
  /\ user r.2 = user st
  /\ (r.1 = Ret None \/ r.1 = Ret (Some id) \/ r.1 = OutOfFuel).
Proof.
  intros Hc r. unfold r. destruct fuel; simpl; [by auto 10|].
  destruct (depth >? Legacy.s_MaxDepth settings); [by auto 10|].
  destruct (negb (v_IsValid (ValueOf obj)) || negb (v_CanInterface (ValueOf obj)));
    [by auto 10|].
  destruct (match Legacy.s_TypeFilter settings with
            | Some f => negb (f (v_Type (ValueOf obj)))
            | None => false
            end); [by auto 10|].
  destruct (Legacy.tagRejects settings (ValueOf obj) path); [by auto 10|].
  destruct (Legacy.cycleGuard (ValueOf obj) st) as [st1|] eqn:Hg; [|by auto 10].
  apply Legacy_cycleGuard_Some in Hg as (HT & HN & HF & HU & _).
  rewrite HF, Hc. simpl. by auto 10.
Qed.

Lemma Legacy_walkRecursive_S fuel h settings obj fn depth path st :
  Legacy.walkRecursive (S fuel) h settings obj fn depth path st
  = if depth >? Legacy.s_MaxDepth settings then (Ret None, st) else
    if negb (v_IsValid (ValueOf obj)) || negb (v_CanInterface (ValueOf obj))
    then (Ret None, st) else
    if match Legacy.s_TypeFilter settings with
       | Some f => negb (f (v_Type (ValueOf obj)))
       | None => false
       end then (Ret None, st) else
    if Legacy.tagRejects settings (ValueOf obj) path then (Ret None, st) else
    match Legacy.cycleGuard (ValueOf obj) st with
    | None => (Ret None, st)
    | Some st1 =>
        match flatMap st1 !! path with
        | Some meta => (Ret (Some meta), st1)
        | None =>
            if match Legacy.s_MetaFilter settings with
               | Some f => negb (f (newMeta (ValueOf obj) path))
               | None => false
               end then (Ret None, st1) else
            match callUserFuncs [fn] (ValueOf obj) (newMeta (ValueOf obj) path)
                    (storeNode (ValueOf obj) (newMeta (ValueOf obj) path) st1) with
            | (Some err, st3) => (Fail err, st3)
            | (None, st3) =>
                walkItems
                  (fun o p s =>
                     Legacy.walkRecursive fuel h settings o fn (int_add depth 1) p s)
                  (length (nodes st1))
                  (Legacy.childItems h path (ValueOf obj)) st3
            end
        end
    end.
Proof. reflexivity. Qed.

Lemma callUserFuncs_one (fn : UserFunc U Err) v meta st res st3 :
  callUserFuncs [fn] v meta st = (res, st3) ->
  trace st3 = (trace st ++ [EvCall v meta res])%list
  /\ nodes st3 = nodes st /\ flatMap st3 = flatMap st /\ visited st3 = visited st.
Proof.
  simpl. destruct (fn v meta (user st)) as [u' [e|]]; by intros [= <- <-].
Qed.

Lemma walkItems_one rec id p o st :
  walkItems (U:=U) (Err:=Err) rec id [mkItem p o] st
  = match o with
    | None => (Panic, st)
    | Some obj =>
        match rec obj p st with
        | (Ret childMeta, st1) =>
            (Ret (Some id),
             match childMeta with Some c => attach id c st1 | None => st1 end)
        | (other, st1) => (other, st1)
        end
    end.
Proof.
  simpl. destruct o; [|done]. by destruct (rec _ _ st) as [[| | |] st1].
Qed.

Lemma attach_self (ns : list FieldMeta) (m : FieldMeta) :
  alter (setParent (length ns)) (length ns)
    (alter (addChild (length ns)) (length ns) (ns ++ [m])%list)
  = (ns ++ [setParent (length ns) (addChild (length ns) m)])%list.
Proof.
  rewrite !alter_app_r_alt by lia. by rewrite Nat.sub_diag.
Qed.

(** X16: the earlier engine does not walk through a pointer.  The
    recursive call for what a pointer refers to is made with the path of
    the pointer itself, where the node of the pointer has just been put
    in the cache: so the call for a pointer records events for the
    pointer only (its node, its one callback), builds one node at most,
    and the value the pointer refers to gets no node and no callback.
    When that inner call gets as far as the cache it returns the node of
    the pointer, which is then attached to itself: the node of the
    pointer, when the call built it, has no child and no parent, or is
    its own only child and its own parent; the latter is what happens
    for a pointer to a struct, a slice, a map or a basic value when no
    filter is set and the depth allows the inner call. *)
Theorem X16_legacy_pointer_is_its_own_child fuel h settings t a fn depth path st :
  let v := ValueOf (VPtr t a) in
  let meta := newMeta v path in
  let r := Legacy.walkRecursive fuel h settings (VPtr t a) fn depth path st in
  (exists new,
     trace r.2 = (trace st ++ new)%list
     /\ (new = [] \/ exists res,
           new = [EvBuild v (length (nodes st)) meta; EvCall v meta res]))
  /\ (nodes r.2 = nodes st
      \/ (exists m,
            nodes r.2 = (nodes st ++ [m])%list
            /\ Name m = Name meta /\ Type_ m = Type_ meta /\ Path m = path
            /\ ((Parent m = None /\ Children m = [])
                \/ (Parent m = Some (length (nodes st))
                    /\ Children m = [length (nodes st)]))))
  /\ (forall d, a <> 0 -> h !! a = Some d ->
        match d with VNil | VPtr _ _ => False | _ => True end ->
        Legacy.s_TypeFilter settings = None ->
        Legacy.s_TagFilter settings = None ->
        int_add depth 1 <= Legacy.s_MaxDepth settings ->
        forall fuel' c,
          fuel = S (S fuel') -> r.1 = Ret (Some c) -> flatMap st !! path = None ->
          exists m, nodes r.2 !! c = Some m
                    /\ Parent m = Some c /\ Children m = [c]).
Proof.
  intros v meta r.
  assert (Hnil : (exists new : list (Event Err),
            trace st = (trace st ++ new)%list
            /\ (new = [] \/ exists res,
                  new = [EvBuild v (length (nodes st)) meta; EvCall v meta res]))).
  { exists []. rewrite app_nil_r. by auto. }
  unfold r. destruct fuel as [|fuel]; [by split_and!; [|left|intros]|].
  rewrite Legacy_walkRecursive_S. fold v. fold meta.
  destruct (depth >? Legacy.s_MaxDepth settings) eqn:Hd;
    [by split_and!; [|left|intros]|].
  change (negb (v_IsValid v) || negb (v_CanInterface v)) with false. cbv iota.
  destruct (match Legacy.s_TypeFilter settings with
            | Some f => negb (f (v_Type v))
            | None => false
            end) eqn:Hty; [by split_and!; [|left|intros]|].
  change (Legacy.tagRejects settings v path) with false. cbv iota.
  destruct (Legacy.cycleGuard v st) as [st1|] eqn:Hg;
    [|by split_and!; [|left|intros]].
  apply Legacy_cycleGuard_Some in Hg as (HT & HN & HF & HU & _).
  destruct (flatMap st1 !! path) as [cached|] eqn:Hc.
  { split_and!; simpl; [by rewrite HT|left; by rewrite HN|].
    intros d _ _ _ _ _ _ fuel' c _ _ Hnone. congruence. }
  destruct (match Legacy.s_MetaFilter settings with
            | Some f => negb (f meta)
            | None => false
            end) eqn:Hmf.
  { split_and!; simpl; [by rewrite HT|left; by rewrite HN|by intros]. }
  destruct (callUserFuncs [fn] v meta (storeNode v meta st1)) as [res st3]
    eqn:Hcall.
  apply callUserFuncs_one in Hcall as (HT3 & HN3 & HF3 & _).
  simpl in HT3, HN3, HF3. rewrite HT, HN in HT3. rewrite HN in HN3.
  rewrite <- app_assoc in HT3. simpl in HT3.
  assert (Hev : exists new : list (Event Err),
            trace st3 = (trace st ++ new)%list
            /\ (new = [] \/ exists res,
                  new = [EvBuild v (length (nodes st)) meta; EvCall v meta res])).
  { eexists. split; [exact HT3|]. right. by eexists. }
  assert (Hleaf : nodes st3 = nodes st
                  \/ (exists m,
                        nodes st3 = (nodes st ++ [m])%list
                        /\ Name m = Name meta /\ Type_ m = Type_ meta
                        /\ Path m = path
                        /\ ((Parent m = None /\ Children m = [])
                            \/ (Parent m = Some (length (nodes st))
                                /\ Children m = [length (nodes st)])))).
  { right. exists meta. split_and!; try done. by left. }
  destruct res as [e|]; [by split_and!|].
  change (Legacy.childItems h path v)
    with [mkItem path (v_Interface (v_Elem h v))].
  rewrite walkItems_one.
  destruct (v_Interface (v_Elem h v)) as [d|] eqn:Hd'.
  2: { split_and!; [done..|]. intros d Ha Hh. unfold v in Hd'. simpl in Hd'.
       rewrite (proj2 (Z.eqb_neq a 0) Ha), Hh in Hd'. done. }
  assert (Hcache : flatMap st3 !! path = Some (length (nodes st1)))
    by (rewrite HF3; apply lookup_insert_eq).
  pose proof (Legacy_walkRecursive_cached fuel h settings d fn
                (int_add depth 1) path st3 _ Hcache)
    as (HT4 & HN4 & HF4 & HU4 & Hout).
  destruct (Legacy.walkRecursive fuel h settings d fn (int_add depth 1) path st3)
    as [out st4] eqn:Hrec.
  simpl in HT4, HN4, HF4, HU4, Hout.
  assert (Hself : alter (setParent (length (nodes st1))) (length (nodes st1))
                    (alter (addChild (length (nodes st1))) (length (nodes st1))
                       (nodes st4))
                  = (nodes st ++ [setParent (length (nodes st))
                                    (addChild (length (nodes st)) meta)])%list).
  { rewrite HN4, HN3, HN. apply attach_self. }
  split_and!.
  - destruct Hout as [->|[->| ->]]; simpl; by rewrite ?HT4.
  - destruct Hout as [->|[->| ->]]; simpl; [by rewrite HN4| |by rewrite HN4].
    right. eexists. split; [exact Hself|]. split_and!; try done. by right.
  - intros d0 Ha Hh Hkind Hnt Hng Hdepth fuel' c [= ->] Hr _.
    assert (d0 = d) as ->.
    { unfold v in Hd'. simpl in Hd'.
      rewrite (proj2 (Z.eqb_neq a 0) Ha), Hh in Hd'. simpl in Hd'. congruence. }
    rewrite Legacy_walkRecursive_S in Hrec.
    assert (Hg : (int_add depth 1 >? Legacy.s_MaxDepth settings) = false)
      by (rewrite Z.gtb_ltb; by apply Z.ltb_ge).
    rewrite Hg, Hnt in Hrec.
    assert (Hv : negb (v_IsValid (ValueOf d))
                 || negb (v_CanInterface (ValueOf d)) = false)
      by (by destruct d).
    rewrite Hv in Hrec.
    assert (Htr : Legacy.tagRejects settings (ValueOf d) path = false).
    { unfold Legacy.tagRejects. rewrite Hng. by repeat case_match. }
    rewrite Htr in Hrec.
    assert (Hcg : Legacy.cycleGuard (ValueOf d) st3 = Some st3).
    { unfold Legacy.cycleGuard. destruct d as [|? k ?|? ?|? ?|? [] ?|? ?]; try done.
      by destruct k. }
    rewrite Hcg, Hcache in Hrec. simplify_eq. simpl in Hr.
    injection Hr as <-. eexists. split.
    + simpl. rewrite Hself, HN. by apply list_lookup_middle.
    + by rewrite HN.
Qed.

End LegacyProperties.

(** * The further properties at particular inputs *)
Section MoreEvaluations.
Import Examples.

(** Under [OnlySettable] the walk of [Hidden], whose field is unexported,
    does not panic. *)
Lemma X8_witness_hidden_struct :
  (walkRecursive 1 ∅ (OnlySettable (U:=unit) (Err:=string) defaultSettings)
     hidden 0 "Hidden" (mkState ∅ [] ∅ tt [])).1 <> Panic.
Proof.
  exact (proj1 (proj2
    (X8_OnlySettable_skips_every_field (U:=unit) (Err:=string) 1 ∅
       (OnlySettable defaultSettings) hiddenType
       [(mkField "a" "main" [], VLeaf intType LInt "0")] 0 "Hidden"
       (mkState ∅ [] ∅ tt []) eq_refl))).
Defined.

(** The walk of [Pair] with the recording callback: what the callback
    has recorded is what its calls, node after node, make of the empty
    list. *)
Lemma X10_witness_pair :
  exists builds : list Blocks.Built,
    user (Walk ∅ pair [WithUserFunc record] []).2
    = fold_left (Blocks.runFuncs [record]) builds []
    /\ map (fun b : Blocks.Built => Path b.2) builds
       = map Path (nodes (Walk ∅ pair [WithUserFunc record] []).2).
Proof.
  destruct (X10_every_callback_runs_once_per_node ∅ pair [WithUserFunc record] []
              (Some 0%nat)
              (flatMap (Walk ∅ pair [WithUserFunc record] []).2))
    as (builds & _ & HU & _ & HP & _); [by vm_compute|].
  exists builds. split; [exact HU|exact HP].
Defined.


(** [Hidden] under the default settings: no root is returned. *)
Lemma X12_witness_hidden_struct :
  (Walk (U:=unit) (Err:=string) ∅ hidden [] tt).1 = Panicked
  \/ exists e,
       (Walk (U:=unit) (Err:=string) ∅ hidden [] tt).1
       = Returned None None (Some e).
Proof.
  apply (X12_unexported_field_stops_the_walk (U:=unit) (Err:=string) ∅
           hiddenType [(mkField "a" "main" [], VLeaf intType LInt "0")] [] tt
           (mkField "a" "main" []) (VLeaf intType LInt "0")).
  - left. reflexivity.
  - reflexivity.
  - reflexivity.
  - reflexivity.
  - exact I.
  - by vm_compute.
Defined.

(** The nested record under [MaxDepth(0)]: the root alone. *)
Lemma X13_witness_nested_record :
  nodes (Walk (U:=unit) (Err:=string) ∅ nested [MaxDepth 0] tt).2
  = [newMeta (ValueOf nested)
       (rootPathOf (anon "struct { S1 struct { S2 struct { SF1 int } } }"))].
Proof.
  apply (X13_MaxDepth_below_one (U:=unit) (Err:=string) ∅ nested [MaxDepth 0] tt
           (anon "struct { S1 struct { S2 struct { SF1 int } } }") eq_refl).
  reflexivity.
Defined.

(** The member of [Tagged] without the tag: nothing at its path. *)
Lemma X15_witness_untagged_field :
  Within (fun k => ~ below ("Tagged" +:+ "." +:+ "Field2") k)
    (mkState (U:=unit) (Err:=string) ∅ [] ∅ tt [])
    (walkRecursive 2 ∅
       (WithTagFilter (TagExists "filter" ["true"]) defaultSettings)
       tagged 0 "Tagged" (mkState ∅ [] ∅ tt [])).2.
Proof.
  apply (X15_rejected_field_is_pruned (U:=unit) (Err:=string) 2 ∅
           (WithTagFilter (TagExists "filter" ["true"]) defaultSettings)
           (TagExists "filter" ["true"]) taggedType
           [(mkField "Field1" "" [("filter", "true")], VLeaf intType LInt "0");
            (mkField "Field2" "" [], VLeaf stringType LString "")]
           0 "Tagged" (mkState ∅ [] ∅ tt [])
           (mkField "Field2" "" []) (VLeaf stringType LString "")).
  - reflexivity.
  - right. left. reflexivity.
  - reflexivity.
  - apply (bool_decide_unpack _). by vm_compute.
  - reflexivity.
Defined.

End MoreEvaluations.
